(** * The range command-execution core of the storage package

    A shallow embedding of [storage/range.go] and of the parts of
    [storage/config.go] it relies on, followed by the properties of the
    command pipeline: method classification, key containment, the
    timestamp-cache check, the response cache, the individual operations
    and the configuration rebroadcast. *)

From Stdlib Require Import ZArith List Bool String Ascii Lia RelationClasses.
From Stdlib Require Import Sorting.Permutation Sorting.Sorted.
From Stdlib Require Import Strings.Byte.
Import ListNotations.

Local Open Scope string_scope.
Local Open Scope list_scope.
Local Open Scope Z_scope.

(** ** Keys and byte slices *)

(** [Key] is a Go [[]byte]; the model keeps the bytes of the slice (its
    length is the list's length). *)
Definition Key := list byte.

(** A nil-able [[]byte]: [None] is the nil slice, [Some bs] a non-nil slice
    (possibly of length zero). The code tests values against nil. *)
Definition byteslice := option (list byte).

(** The bytes of a possibly nil slice, as [bytes.Equal] and [bytes.NewBuffer]
    see them. *)
Definition contents (b : byteslice) : list byte :=
  match b with Some bs => bs | None => [] end.

Definition bytes_of (s : string) : list byte := list_byte_of_string s.

(** [bytes.Compare]: lexicographic order on unsigned bytes. *)
Fixpoint bytes_compare (a b : list byte) : comparison :=
  match a, b with
  | [], [] => Eq
  | [], _ :: _ => Lt
  | _ :: _, [] => Gt
  | x :: a', y :: b' =>
      match N.compare (Byte.to_N x) (Byte.to_N y) with
      | Eq => bytes_compare a' b'
      | c => c
      end
  end.

(** [bytes.Equal]; nil and empty slices are equal. *)
Definition bytes_Equal (a b : list byte) : bool :=
  match bytes_compare a b with Eq => true | _ => false end.

(** [bytes.HasPrefix]. *)
Fixpoint HasPrefix (s prefix : list byte) : bool :=
  match prefix, s with
  | [], _ => true
  | _ :: _, [] => false
  | p :: prefix', x :: s' => Byte.eqb x p && HasPrefix s' prefix'
  end.

(** [bytes.TrimPrefix]. *)
Definition TrimPrefix (s prefix : list byte) : list byte :=
  if HasPrefix s prefix then skipn (List.length prefix) s else s.

(** Modelled from the spec: [Key.Less] is declared in keys.go, which is not
    among the sources; the spec makes a key "an opaque, totally ordered byte
    sequence", which is the order of [bytes.Compare]. *)
Definition Less (k l : Key) : bool :=
  match bytes_compare k l with Lt => true | _ => false end.

(** The outcome of a Go call that may panic. *)
Inductive result (A : Type) : Type :=
| Returns (a : A)
| Panics (msg : string).
Arguments Returns {A} a.
Arguments Panics {A} msg.

(** The slice expression [k[0:n]]. The model's keys have capacity equal to
    their length (as a key decoded from a request has), so the expression
    panics when [n] exceeds the length. *)
Definition slice_to (k : Key) (n : nat) : result Key :=
  if (n <=? List.length k)%nat then Returns (firstn n k)
  else Panics "slice bounds out of range".

(** ** config.go: range descriptors *)

Definition Attributes := list string.

Record Replica := {
  NodeID : Z;
  StoreID : Z;
  Replica_RangeID : Z;
  Attrs : Attributes
}.

Record RangeDescriptor := {
  StartKey : Key;
  EndKey : Key;
  Replicas : list Replica
}.

(** [func (r *RangeDescriptor) ContainsKey(key Key) bool] *)
Definition RangeDescriptor_ContainsKey (r : RangeDescriptor) (key : Key) : bool :=
  negb (Less key (StartKey r)) && Less key (EndKey r).

(** [func (r *RangeDescriptor) ContainsKeyRange(start, end Key) bool] *)
Definition RangeDescriptor_ContainsKeyRange (r : RangeDescriptor) (start end_ : Key)
  : result bool :=
  let end_ := if (List.length end_ =? 0)%nat then start else end_ in
  if Less end_ start then Panics "start key is larger than end key"
  else Returns (negb (Less start (StartKey r)) && negb (Less (EndKey r) end_)).

(** ** range.go: method names and their classification *)

Definition Contains := "Contains".
Definition Get := "Get".
Definition Put := "Put".
Definition ConditionalPut := "ConditionalPut".
Definition Increment := "Increment".
Definition Scan := "Scan".
Definition Delete := "Delete".
Definition DeleteRange := "DeleteRange".
Definition EndTransaction := "EndTransaction".
Definition AccumulateTS := "AccumulateTS".
Definition ReapQueue := "ReapQueue".
Definition EnqueueUpdate := "EnqueueUpdate".
Definition EnqueueMessage := "EnqueueMessage".
Definition InternalRangeLookup := "InternalRangeLookup".

(** The [map[string]struct{}] method sets, as the lists of their keys. *)
Definition readMethods : list string :=
  [Contains; Get; ConditionalPut; Increment; Scan; ReapQueue;
   InternalRangeLookup].

Definition writeMethods : list string :=
  [Put; ConditionalPut; Increment; Delete; DeleteRange; EndTransaction;
   AccumulateTS; ReapQueue; EnqueueUpdate; EnqueueMessage].

(** [_, ok := m[method]] *)
Definition has_key (m : list string) (method : string) : bool :=
  existsb (String.eqb method) m.

Definition NeedReadPerm (method : string) : bool := has_key readMethods method.

Definition NeedWritePerm (method : string) : bool := has_key writeMethods method.

Definition IsReadOnly (method : string) : bool := negb (NeedWritePerm method).

(** The method names of the KV API, in the order of the constant block. *)
Definition methods : list string :=
  [Contains; Get; Put; ConditionalPut; Increment; Scan; Delete; DeleteRange;
   EndTransaction; AccumulateTS; ReapQueue; EnqueueUpdate; EnqueueMessage;
   InternalRangeLookup].

(** ** Values, timestamps, errors, requests and replies *)

(** Modelled from the spec: [hlc.HLTimestamp] is declared in package hlc,
    which is not among the sources; the spec makes it "a logical clock value
    with a physical component and a logical tie-breaking counter; totally
    ordered". range.go names the counter [Logical]. *)
Record Timestamp := {
  WallTime : Z;
  Logical : Z
}.

(** Modelled from the spec: [HLTimestamp.Less], the total order of the spec's
    Timestamp: the physical component first, the logical counter as the
    tie-break. *)
Definition Timestamp_Less (t s : Timestamp) : bool :=
  (WallTime t <? WallTime s)
  || ((WallTime t =? WallTime s) && (Logical t <? Logical s)).

(** The integer type of the [Logical] counter is declared with the timestamp;
    its least and greatest values are kept as parameters, and [ts.Logical++]
    wraps around from the greatest to the least as Go's integers do. *)
Class LogicalCounter := {
  Logical_min : Z;
  Logical_max : Z
}.

Definition Logical_incr `{LogicalCounter} (ts : Timestamp) : Timestamp :=
  {| WallTime := WallTime ts;
     Logical := if Logical ts =? Logical_max then Logical_min
                else Logical ts + 1 |}.

(** The [Value] of the API; the code reads and writes its [Bytes] only. *)
Record Value := {
  Bytes : byteslice
}.

Record KeyValue := {
  KV_Key : Key;
  KV_Value : Value
}.

(** A key/value pair as the engine's [scan] returns it ([kv.key],
    [kv.value]). *)
Record rawKeyValue := {
  key : Key;
  value : byteslice
}.

Record RangeMetadata := {
  Desc : RangeDescriptor;   (* the embedded RangeDescriptor *)
  ClusterID : string;
  RangeID : Z
}.

(** The [error] values of the package. Each [util.Errorf] and [util.Error]
    call of range.go is a constructor carrying the arguments of its format;
    [ExternalError] stands for an error made by a collaborator (engine, gob
    decoder, gossip, caches). *)
Inductive error : Type :=
| Errorf_unrecognized_command_type (method : string)
| Errorf_key_already_exists (k : Key)
| Errorf_key_does_not_exist (k : Key)
| Errorf_key_does_not_match_existing (k : Key)
| Error_unimplemented
| Errorf_invalid_metadata_key (k : Key)
| Errorf_key_outside_the_range (rangeID : Z) (endKey : Key)
| Errorf_key_not_found_in_range (rangeID : Z)
| Errorf_no_range_found_for_key (k : Key) (meta : RangeMetadata)
| Errorf_unable_to_unmarshal_config_key (k : Key) (cause : error)
| NotLeaderError
| ExternalError (msg : string).

(** Modelled from the spec: [ClientCmdID] is declared in api.go, which is not
    among the sources; the spec describes "a client-supplied unique
    identifier (e.g., client-epoch + sequence)". *)
Record ClientCmdID := {
  CmdID_WallTime : Z;
  CmdID_Random : Z
}.

(** The fields of [RequestHeader] that range.go reads or writes. *)
Record RequestHeader := {
  hTimestamp : Timestamp;
  hCmdID : ClientCmdID;
  hKey : Key;
  hEndKey : Key
}.

(** The fields of [ResponseHeader] that range.go reads or writes. *)
Record ResponseHeader := {
  Error : option error;
  rTimestamp : Timestamp
}.

Record ContainsResponse_t := {
  Contains_hdr : ResponseHeader;
  Exists : bool
}.

Record GetResponse_t := {
  Get_hdr : ResponseHeader;
  Get_Value : Value
}.

Record ConditionalPutResponse_t := {
  CPut_hdr : ResponseHeader;
  ActualValue : option Value   (* *Value *)
}.

Record IncrementResponse_t := {
  Incr_hdr : ResponseHeader;
  NewValue : Z
}.

Record ScanResponse_t := {
  Scan_hdr : ResponseHeader;
  Rows : list KeyValue
}.

Record InternalRangeLookupResponse_t := {
  Lookup_hdr : ResponseHeader;
  Lookup_EndKey : Key;
  Lookup_Range : RangeDescriptor
}.

(** The [args interface{}] of a command: one constructor per request type,
    with the request header and the fields the handlers read. *)
Inductive Args : Type :=
| ContainsRequest (h : RequestHeader)
| GetRequest (h : RequestHeader)
| PutRequest (h : RequestHeader) (v : Value)
| ConditionalPutRequest (h : RequestHeader) (v : Value) (ExpValue : Value)
| IncrementRequest (h : RequestHeader) (Increment : Z)
| DeleteRequest (h : RequestHeader)
| DeleteRangeRequest (h : RequestHeader)
| ScanRequest (h : RequestHeader) (MaxResults : Z)
| EndTransactionRequest (h : RequestHeader)
| AccumulateTSRequest (h : RequestHeader)
| ReapQueueRequest (h : RequestHeader)
| EnqueueUpdateRequest (h : RequestHeader)
| EnqueueMessageRequest (h : RequestHeader)
| InternalRangeLookupRequest (h : RequestHeader).

(** The [reply interface{}] of a command: one constructor per response
    type. *)
Inductive Reply : Type :=
| ContainsResponse (r : ContainsResponse_t)
| GetResponse (r : GetResponse_t)
| PutResponse (r : ResponseHeader)
| ConditionalPutResponse (r : ConditionalPutResponse_t)
| IncrementResponse (r : IncrementResponse_t)
| DeleteResponse (r : ResponseHeader)
| DeleteRangeResponse (r : ResponseHeader)
| ScanResponse (r : ScanResponse_t)
| EndTransactionResponse (r : ResponseHeader)
| AccumulateTSResponse (r : ResponseHeader)
| ReapQueueResponse (r : ResponseHeader)
| EnqueueUpdateResponse (r : ResponseHeader)
| EnqueueMessageResponse (r : ResponseHeader)
| InternalRangeLookupResponse (r : InternalRangeLookupResponse_t).

(** [reflect.ValueOf(args).Elem().FieldByName(...)] reaches the embedded
    request header. *)
Definition args_header (a : Args) : RequestHeader :=
  match a with
  | ContainsRequest h | GetRequest h | PutRequest h _
  | ConditionalPutRequest h _ _ | IncrementRequest h _ | DeleteRequest h
  | DeleteRangeRequest h | ScanRequest h _ | EndTransactionRequest h
  | AccumulateTSRequest h | ReapQueueRequest h | EnqueueUpdateRequest h
  | EnqueueMessageRequest h | InternalRangeLookupRequest h => h
  end.

(** [reflect.ValueOf(reply).Elem().FieldByName(...)] reaches the embedded
    response header. *)
Definition reply_header (r : Reply) : ResponseHeader :=
  match r with
  | ContainsResponse r => Contains_hdr r
  | GetResponse r => Get_hdr r
  | ConditionalPutResponse r => CPut_hdr r
  | IncrementResponse r => Incr_hdr r
  | ScanResponse r => Scan_hdr r
  | InternalRangeLookupResponse r => Lookup_hdr r
  | PutResponse h | DeleteResponse h | DeleteRangeResponse h
  | EndTransactionResponse h | AccumulateTSResponse h | ReapQueueResponse h
  | EnqueueUpdateResponse h | EnqueueMessageResponse h => h
  end.

Definition set_Error (h : ResponseHeader) (e : option error) : ResponseHeader :=
  {| Error := e; rTimestamp := rTimestamp h |}.

Definition set_rTimestamp (h : ResponseHeader) (ts : Timestamp) : ResponseHeader :=
  {| Error := Error h; rTimestamp := ts |}.

Definition map_reply_header (f : ResponseHeader -> ResponseHeader) (r : Reply)
  : Reply :=
  match r with
  | ContainsResponse r =>
      ContainsResponse {| Contains_hdr := f (Contains_hdr r); Exists := Exists r |}
  | GetResponse r =>
      GetResponse {| Get_hdr := f (Get_hdr r); Get_Value := Get_Value r |}
  | ConditionalPutResponse r =>
      ConditionalPutResponse
        {| CPut_hdr := f (CPut_hdr r); ActualValue := ActualValue r |}
  | IncrementResponse r =>
      IncrementResponse {| Incr_hdr := f (Incr_hdr r); NewValue := NewValue r |}
  | ScanResponse r =>
      ScanResponse {| Scan_hdr := f (Scan_hdr r); Rows := Rows r |}
  | InternalRangeLookupResponse r =>
      InternalRangeLookupResponse
        {| Lookup_hdr := f (Lookup_hdr r); Lookup_EndKey := Lookup_EndKey r;
           Lookup_Range := Lookup_Range r |}
  | PutResponse h => PutResponse (f h)
  | DeleteResponse h => DeleteResponse (f h)
  | DeleteRangeResponse h => DeleteRangeResponse (f h)
  | EndTransactionResponse h => EndTransactionResponse (f h)
  | AccumulateTSResponse h => AccumulateTSResponse (f h)
  | ReapQueueResponse h => ReapQueueResponse (f h)
  | EnqueueUpdateResponse h => EnqueueUpdateResponse (f h)
  | EnqueueMessageResponse h => EnqueueMessageResponse (f h)
  end.

(** [reply.Error] read through reflection. *)
Definition reply_Error (r : Reply) : option error := Error (reply_header r).

(** [reflect.Indirect(replyVal).FieldByName("Timestamp").Set(...)] *)
Definition set_reply_Timestamp (r : Reply) (ts : Timestamp) : Reply :=
  map_reply_header (fun h => set_rTimestamp h ts) r.

(** ** config.go: configuration structs *)

Record AcctConfig := {
  Acct_ClusterID : string
}.

Record PermConfig := {
  Read : list string;
  Write : list string
}.

Record ZoneConfig := {
  Zone_Replicas : list Attributes;
  RangeMinBytes : Z;
  RangeMaxBytes : Z
}.

(** A [configI interface{}] / decoded config: one of the three structs. *)
Inductive Config : Type :=
| Config_Acct (c : AcctConfig)
| Config_Perm (c : PermConfig)
| Config_Zone (c : ZoneConfig).

Record PrefixConfig := {
  Prefix : Key;
  PC_Config : Config
}.

(** [PrefixConfigMap] is a slice of prefix configs. *)
Definition PrefixConfigMap := list PrefixConfig.

(** The [val interface{}] handed to [gossip.AddInfo]. *)
Inductive Info : Type :=
| Info_string (s : string)
| Info_RangeDescriptor (d : RangeDescriptor)
| Info_PrefixConfigMap (m : PrefixConfigMap).

(** An element of the [configPrefixes] table. *)
Record configPrefix := {
  keyPrefix : Key;
  gossipKey : string;
  configI : Config;
  dirty : bool
}.

Definition set_dirty (cp : configPrefix) (b : bool) : configPrefix :=
  {| keyPrefix := keyPrefix cp; gossipKey := gossipKey cp;
     configI := configI cp; dirty := b |}.

(** ** config.go: attributes, stores and replicas *)

(** The order of Go's [<] on strings: that of their bytes. *)
Definition string_le (a b : string) : bool :=
  match bytes_compare (list_byte_of_string a) (list_byte_of_string b) with
  | Gt => false
  | _ => true
  end.

Fixpoint sort_insert (x : string) (l : list string) : list string :=
  match l with
  | [] => [x]
  | y :: l' => if string_le x y then x :: l else y :: sort_insert x l'
  end.

(** [sort.Strings]: the slice in increasing order. The order is total, so
    the sorted slice does not depend on the sorting algorithm; the model
    sorts by insertion. *)
Fixpoint sort_Strings (l : list string) : list string :=
  match l with
  | [] => []
  | x :: l' => sort_insert x (sort_Strings l')
  end.

(** A slice of strings in increasing order. *)
Definition increasing (l : list string) : Prop :=
  StronglySorted (fun x y => string_le x y = true) l.

(** [strings.Join]. *)
Fixpoint Join (l : list string) (sep : string) : string :=
  match l with
  | [] => ""
  | [x] => x
  | x :: l' => x ++ sep ++ Join l' sep
  end.

(** [func (a Attributes) IsSubset(b Attributes) bool]: the map [m] holds the
    strings of [b]; the loop over [a] returns false at the first string that
    is not a key of [m]. *)
Definition IsSubset (a b : Attributes) : bool :=
  forallb (fun s => has_key b s) a.

(** The second half of [SortedString], from the keys of the map [m] in the
    order the [range] loop over the map visits them, an order Go leaves
    open. *)
Definition SortedString_of_keys (keys : list string) : string :=
  Join (sort_Strings keys) ",".

(** [func (a Attributes) SortedString() string], the keys of the map taken
    in the order of their occurrence in [a]. *)
Definition SortedString (a : Attributes) : string :=
  SortedString_of_keys (nodup string_dec a).

Record StoreCapacity := {
  Capacity : Z;
  Available : Z
}.

Record NodeDescriptor := {
  Node_NodeID : Z;
  Address : string;          (* a net.Addr *)
  Node_Attrs : Attributes
}.

Record StoreDescriptor := {
  Store_StoreID : Z;
  Store_Attrs : Attributes;
  Node : NodeDescriptor;
  Store_Capacity : StoreCapacity
}.

(** [func (s *StoreDescriptor) CombinedAttrs() Attributes] *)
Definition CombinedAttrs (s : StoreDescriptor) : Attributes :=
  Node_Attrs (Node s) ++ Store_Attrs s.

(** [func ChooseRandomReplica(replicas []Replica) *Replica]. [Intn] is
    [util.CachedRand.Intn], whose result is taken as it comes: an index
    outside the slice panics. *)
Definition ChooseRandomReplica (Intn : Z -> Z) (replicas : list Replica)
  : result (option Replica) :=
  if (List.length replicas =? 0)%nat then Returns None
  else
    let i := Intn (Z.of_nat (List.length replicas)) in
    if (i <? 0) || (Z.of_nat (List.length replicas) <=? i) then
      Panics "index out of range"
    else
      match nth_error replicas (Z.to_nat i) with
      | Some r => Returns (Some r)
      | None => Panics "index out of range"
      end.

(** ** Collaborators

    The engine, the response cache, the read timestamp cache, the read queue
    and gossip are used by range.go through their methods only; each is an
    interface over an abstract state. A method returns the collaborator's
    next state next to its Go results. *)

Module Engine.
Class t (E : Type) := {
  get : E -> Key -> byteslice * option error;
  put : E -> Key -> byteslice -> E * option error;
  clear : E -> Key -> E * option error;
  scan : E -> Key -> Key -> Z -> list rawKeyValue * option error
}.
End Engine.

(** The response cache is made over the range's engine
    ([NewResponseCache(meta.RangeID, engine)]): its methods read and write
    that engine. [GetResponse] decodes into the reply it is given. *)
Module ResponseCache.
Class t (RC E : Type) := {
  GetResponse : RC -> E -> ClientCmdID -> Reply -> RC * Reply * (bool * option error);
  PutResponse : RC -> E -> ClientCmdID -> Reply -> RC * E * option error
}.
End ResponseCache.

Module ReadTimestampCache.
Class t (TC : Type) := {
  Add : TC -> Key -> Key -> Timestamp -> TC;
  GetMax : TC -> Key -> Key -> Timestamp
}.
End ReadTimestampCache.

Module ReadQueue.
Class t (RQ : Type) := {
  wkey : Type;
  AddRead : RQ -> Key -> Key -> RQ;
  AddWrite : RQ -> Key -> Key -> RQ * wkey;
  RemoveWrite : RQ -> wkey -> RQ
}.
End ReadQueue.

Module Gossip.
Class t (G : Type) := {
  AddInfo : G -> string -> Info -> Z -> G * option error
}.
End Gossip.

(** What range.go uses of the rest of the package and of its imports: the
    key constants and key functions of keys.go, the gossip keys,
    [increment] of engine.go, [NewPrefixConfigMap] and the gob decoder at
    the two types it is used at. A decoder returns the value left in its
    target and its error. *)
Class Package (E : Type) := {
  KeyMin : Key;
  KeyMax : Key;
  KeyMetaPrefix : Key;
  KeyMeta1Prefix : Key;
  KeyConfigAccountingPrefix : Key;
  KeyConfigPermissionPrefix : Key;
  KeyConfigZonePrefix : Key;
  gossip_KeyConfigAccounting : string;
  gossip_KeyConfigPermission : string;
  gossip_KeyConfigZone : string;
  NextKey : Key -> Key;
  PrefixEndKey : Key -> Key;
  increment : E -> Key -> Z -> E * (Z * option error);
  NewPrefixConfigMap : list PrefixConfig -> PrefixConfigMap * option error;
  gob_Decode_RangeDescriptor :
    list byte -> RangeDescriptor -> RangeDescriptor * option error;
  gob_Decode_Config : list byte -> Config -> Config * option error
}.

(** The lines range.go writes with [glog.Errorf]. *)
Inductive LogLine : Type :=
| unable_to_read_result (args : Args) (err : error)
| unable_to_write_result (args : Args) (reply : Reply) (putErr : error)
| failed_loading_config_map (gossipKey : string) (err : error)
| failed_to_gossip_configMap (gossipKey : string) (err : error).

(** A [Cmd] as it is sent to raft (the [done] channel is the return of
    [EnqueueCmd] in the model). *)
Record Cmd := {
  Method : string;
  Cmd_Args : Args;
  Cmd_Reply : Reply;
  ReadOnly : bool
}.

(** What the range does towards the outside, in order: lines logged,
    commands sent on the raft channel, replies handed to the response cache
    and infos handed to gossip. *)
Inductive Event : Type :=
| glog_Errorf (l : LogLine)
| raft_send (cmd : Cmd)
| respCache_PutResponse (cmdID : ClientCmdID) (reply : Reply)
| gossip_AddInfo (key : string) (val : Info) (ttl : Z).

(** ** The range and its commands *)

Section Model.

Context {E G RC TC RQ : Type}.
Context `{!Engine.t E} `{!ResponseCache.t RC E} `{!ReadTimestampCache.t TC}
        `{!ReadQueue.t RQ} `{!Gossip.t G} `{!Package E} `{!LogicalCounter}.

(** The [Range] struct. The raft and closer channels are not fields of the
    model: sending on [raft] is an [Event]. *)
Record Range := {
  Meta : RangeMetadata;
  engine : E;
  gossip : option G;      (* a nil-able *gossip.Gossip *)
  readQ : RQ;
  tsCache : TC;
  respCache : RC
}.

(** The state a command runs in: the range, the package-level
    [configPrefixes] table and the events so far. *)
Record World := {
  rng : Range;
  configPrefixes : list configPrefix;
  trace : list Event
}.

Definition with_engine (e : E) (r : Range) : Range :=
  {| Meta := Meta r; engine := e; gossip := gossip r; readQ := readQ r;
     tsCache := tsCache r; respCache := respCache r |}.

Definition with_gossip (g : option G) (r : Range) : Range :=
  {| Meta := Meta r; engine := engine r; gossip := g; readQ := readQ r;
     tsCache := tsCache r; respCache := respCache r |}.

Definition with_readQ (q : RQ) (r : Range) : Range :=
  {| Meta := Meta r; engine := engine r; gossip := gossip r; readQ := q;
     tsCache := tsCache r; respCache := respCache r |}.

Definition with_tsCache (c : TC) (r : Range) : Range :=
  {| Meta := Meta r; engine := engine r; gossip := gossip r; readQ := readQ r;
     tsCache := c; respCache := respCache r |}.

Definition with_respCache (c : RC) (r : Range) : Range :=
  {| Meta := Meta r; engine := engine r; gossip := gossip r; readQ := readQ r;
     tsCache := tsCache r; respCache := c |}.

(** The table as range.go declares it: all three prefixes start dirty. *)
Definition configPrefixes_decl : list configPrefix :=
  [ {| keyPrefix := KeyConfigAccountingPrefix;
       gossipKey := gossip_KeyConfigAccounting;
       configI := Config_Acct {| Acct_ClusterID := "" |};
       dirty := true |};
    {| keyPrefix := KeyConfigPermissionPrefix;
       gossipKey := gossip_KeyConfigPermission;
       configI := Config_Perm {| Read := []; Write := [] |};
       dirty := true |};
    {| keyPrefix := KeyConfigZonePrefix;
       gossipKey := gossip_KeyConfigZone;
       configI := Config_Zone {| Zone_Replicas := []; RangeMinBytes := 0;
                                 RangeMaxBytes := 0 |};
       dirty := true |} ].

(** *** A state monad with panics *)

Inductive outcome (A : Type) : Type :=
| Done (a : A) (w : World)
| Panicked (msg : string).
Arguments Done {A} a w.
Arguments Panicked {A} msg.

Definition M (A : Type) : Type := World -> outcome A.

Definition ret {A} (a : A) : M A := fun w => Done a w.

Definition bind {A B} (m : M A) (k : A -> M B) : M B :=
  fun w => match m w with
           | Done a w' => k a w'
           | Panicked msg => Panicked msg
           end.

Definition panic {A} (msg : string) : M A := fun _ => Panicked msg.

Definition lift {A} (r : result A) : M A :=
  match r with Returns a => ret a | Panics msg => panic msg end.

Notation "x <- m ;; k" := (bind m (fun x => k))
  (at level 61, m at next level, right associativity).
Notation "m ;;; k" := (bind m (fun _ => k))
  (at level 61, right associativity).

Definition the_range : M Range := fun w => Done (rng w) w.

Definition set_range (r : Range) : M unit :=
  fun w => Done tt {| rng := r; configPrefixes := configPrefixes w;
                      trace := trace w |}.

Definition the_configPrefixes : M (list configPrefix) :=
  fun w => Done (configPrefixes w) w.

Definition emit (ev : Event) : M unit :=
  fun w => Done tt {| rng := rng w; configPrefixes := configPrefixes w;
                      trace := trace w ++ [ev] |}.

(** *** Calls on the collaborators *)

Definition engine_get (k : Key) : M (byteslice * option error) :=
  r <- the_range ;; ret (Engine.get (engine r) k).

Definition engine_put (k : Key) (v : byteslice) : M (option error) :=
  r <- the_range ;;
  let (e', err) := Engine.put (engine r) k v in
  set_range (with_engine e' r) ;;; ret err.

Definition engine_clear (k : Key) : M (option error) :=
  r <- the_range ;;
  let (e', err) := Engine.clear (engine r) k in
  set_range (with_engine e' r) ;;; ret err.

Definition engine_scan (start end_ : Key) (max : Z)
  : M (list rawKeyValue * option error) :=
  r <- the_range ;; ret (Engine.scan (engine r) start end_ max).

Definition call_increment (k : Key) (inc : Z) : M (Z * option error) :=
  r <- the_range ;;
  let (e', res) := increment (engine r) k inc in
  set_range (with_engine e' r) ;;; ret res.

Definition call_GetResponse (cmdID : ClientCmdID) (reply : Reply)
  : M (Reply * (bool * option error)) :=
  r <- the_range ;;
  let '(rc', reply', res) :=
    ResponseCache.GetResponse (respCache r) (engine r) cmdID reply in
  set_range (with_respCache rc' r) ;;; ret (reply', res).

Definition call_PutResponse (cmdID : ClientCmdID) (reply : Reply)
  : M (option error) :=
  r <- the_range ;;
  let '(rc', e', err) :=
    ResponseCache.PutResponse (respCache r) (engine r) cmdID reply in
  emit (respCache_PutResponse cmdID reply) ;;;
  set_range (with_respCache rc' (with_engine e' r)) ;;; ret err.

(** [r.gossip.AddInfo(...)]; a nil [r.gossip] is a nil dereference. *)
Definition call_AddInfo (k : string) (val : Info) (ttl : Z) : M (option error) :=
  r <- the_range ;;
  match gossip r with
  | None => panic "nil pointer dereference"
  | Some g =>
      let (g', err) := Gossip.AddInfo g k val ttl in
      emit (gossip_AddInfo k val ttl) ;;;
      set_range (with_gossip (Some g') r) ;;; ret err
  end.

(** *** range.go *)

(** [IsLeader]: "this is always true for now". *)
Definition IsLeader : M bool := ret true.

(** [func (r *Range) ContainsKey(key Key) bool] *)
Definition Range_ContainsKey (k : Key) : M bool :=
  r <- the_range ;; ret (RangeDescriptor_ContainsKey (Desc (Meta r)) k).

(** [func (r *Range) ContainsKeyRange(start, end Key) bool] *)
Definition Range_ContainsKeyRange (start end_ : Key) : M bool :=
  r <- the_range ;;
  lift (RangeDescriptor_ContainsKeyRange (Desc (Meta r)) start end_).

(** The loop of [loadConfigMap] over the scanned pairs; [configs] is the
    slice appended to. *)
Fixpoint loadConfigMap_loop (keyPrefix : Key) (configI : Config)
  (kvs : list rawKeyValue) (configs : list PrefixConfig)
  : list PrefixConfig + error :=
  match kvs with
  | [] => inl configs
  | kv :: kvs' =>
      let (config, err) := gob_Decode_Config (contents (value kv)) configI in
      match err with
      | Some e => inr (Errorf_unable_to_unmarshal_config_key (key kv) e)
      | None =>
          loadConfigMap_loop keyPrefix configI kvs'
            (configs ++ [ {| Prefix := TrimPrefix (key kv) keyPrefix;
                             PC_Config := config |} ])
      end
  end.

(** [func (r *Range) loadConfigMap(keyPrefix Key, configI interface{})] *)
Definition loadConfigMap (keyPrefix : Key) (configI : Config)
  : M (PrefixConfigMap * option error) :=
  res <- engine_scan keyPrefix (PrefixEndKey keyPrefix) 0 ;;
  let (kvs, err) := res in
  match err with
  | Some e => ret ([], Some e)
  | None =>
      match loadConfigMap_loop keyPrefix configI kvs [] with
      | inr e => ret ([], Some e)
      | inl configs => ret (NewPrefixConfigMap configs)
      end
  end.

(** One iteration of the loop of [maybeGossipConfigs]. [cp] is the loop
    variable of [for _, cp := range configPrefixes]: a copy of the table's
    element, so the assignment [cp.dirty = false] changes that copy and the
    table keeps its value. *)
Definition maybeGossipConfigs_body (cp : configPrefix) : M unit :=
  contained <- Range_ContainsKey (keyPrefix cp) ;;
  if dirty cp && contained then
    res <- loadConfigMap (keyPrefix cp) (configI cp) ;;
    let (configMap, err) := res in
    match err with
    | Some e => emit (glog_Errorf (failed_loading_config_map (gossipKey cp) e))
    | None =>
        err <- call_AddInfo (gossipKey cp) (Info_PrefixConfigMap configMap) 0 ;;
        match err with
        | Some e =>
            emit (glog_Errorf (failed_to_gossip_configMap (gossipKey cp) e))
        | None =>
            let cp := set_dirty cp false in
            ret tt
        end
    end
  else ret tt.

Fixpoint maybeGossipConfigs_loop (cps : list configPrefix) : M unit :=
  match cps with
  | [] => ret tt
  | cp :: cps' => maybeGossipConfigs_body cp ;;; maybeGossipConfigs_loop cps'
  end.

(** [func (r *Range) maybeGossipConfigs()] *)
Definition maybeGossipConfigs : M unit :=
  r <- the_range ;;
  leader <- IsLeader ;;
  if (match gossip r with Some _ => true | None => false end) && leader then
    cps <- the_configPrefixes ;;
    maybeGossipConfigs_loop cps
  else ret tt.

(** The loop of [internalPut] over the table, left at the first prefix of
    the key ([break]). The assignment [cp.dirty = true] is to the loop
    variable, a copy of the table's element. *)
Fixpoint internalPut_loop (k : Key) (cps : list configPrefix) : M unit :=
  match cps with
  | [] => ret tt
  | cp :: cps' =>
      if HasPrefix k (keyPrefix cp) then
        let cp := set_dirty cp true in
        maybeGossipConfigs
      else internalPut_loop k cps'
  end.

(** [func (r *Range) internalPut(key Key, value Value) error] *)
Definition internalPut (k : Key) (v : Value) : M (option error) :=
  err <- engine_put k (Bytes v) ;;
  match err with
  | Some e => ret (Some e)
  | None =>
      cps <- the_configPrefixes ;;
      internalPut_loop k cps ;;;
      ret None
  end.

(** [func (r *Range) Contains(args *ContainsRequest, reply *ContainsResponse)] *)
Definition Range_Contains (args : RequestHeader) (reply : ContainsResponse_t)
  : M ContainsResponse_t :=
  res <- engine_get (hKey args) ;;
  let (val, err) := res in
  match err with
  | Some e =>
      ret {| Contains_hdr := set_Error (Contains_hdr reply) (Some e);
             Exists := Exists reply |}
  | None =>
      match val with
      | Some _ => ret {| Contains_hdr := Contains_hdr reply; Exists := true |}
      | None => ret reply
      end
  end.

(** [func (r *Range) Get(args *GetRequest, reply *GetResponse)] *)
Definition Range_Get (args : RequestHeader) (reply : GetResponse_t)
  : M GetResponse_t :=
  res <- engine_get (hKey args) ;;
  let (val, err) := res in
  ret {| Get_hdr := set_Error (Get_hdr reply) err;
         Get_Value := {| Bytes := val |} |}.

(** [func (r *Range) Put(args *PutRequest, reply *PutResponse)] *)
Definition Range_Put (args : RequestHeader) (v : Value) (reply : ResponseHeader)
  : M ResponseHeader :=
  err <- internalPut (hKey args) v ;;
  ret (set_Error reply err).

(** [func (r *Range) ConditionalPut(args *ConditionalPutRequest,
    reply *ConditionalPutResponse)] *)
Definition Range_ConditionalPut (args : RequestHeader) (v ExpValue : Value)
  (reply : ConditionalPutResponse_t) : M ConditionalPutResponse_t :=
  let set_err (r : ConditionalPutResponse_t) (e : option error) :=
    {| CPut_hdr := set_Error (CPut_hdr r) e; ActualValue := ActualValue r |} in
  let put :=
    err <- internalPut (hKey args) v ;;
    ret (set_err reply err) in
  res <- engine_get (hKey args) ;;
  let (val, err) := res in
  match err with
  | Some e => ret (set_err reply (Some e))
  | None =>
      match Bytes ExpValue, val with
      | None, Some _ =>
          ret (set_err reply (Some (Errorf_key_already_exists (hKey args))))
      | None, None => put
      | Some exp, None =>
          ret (set_err reply (Some (Errorf_key_does_not_exist (hKey args))))
      | Some exp, Some cur =>
          if negb (bytes_Equal exp cur) then
            ret {| CPut_hdr :=
                     set_Error (CPut_hdr reply)
                       (Some (Errorf_key_does_not_match_existing (hKey args)));
                   ActualValue := Some {| Bytes := val |} |}
          else put
      end
  end.

(** [func (r *Range) Increment(args *IncrementRequest, reply *IncrementResponse)] *)
Definition Range_Increment (args : RequestHeader) (inc : Z)
  (reply : IncrementResponse_t) : M IncrementResponse_t :=
  res <- call_increment (hKey args) inc ;;
  let (newValue, err) := res in
  ret {| Incr_hdr := set_Error (Incr_hdr reply) err; NewValue := newValue |}.

(** [func (r *Range) Delete(args *DeleteRequest, reply *DeleteResponse)] *)
Definition Range_Delete (args : RequestHeader) (reply : ResponseHeader)
  : M ResponseHeader :=
  err <- engine_clear (hKey args) ;;
  match err with
  | Some e => ret (set_Error reply (Some e))
  | None => ret reply
  end.

(** [func (r *Range) DeleteRange(args *DeleteRangeRequest,
    reply *DeleteRangeResponse)] *)
Definition Range_DeleteRange (args : RequestHeader) (reply : ResponseHeader)
  : M ResponseHeader :=
  ret (set_Error reply (Some Error_unimplemented)).

(** [func (r *Range) Scan(args *ScanRequest, reply *ScanResponse)] *)
Definition Range_Scan (args : RequestHeader) (MaxResults : Z)
  (reply : ScanResponse_t) : M ScanResponse_t :=
  res <- engine_scan (hKey args) (hEndKey args) MaxResults ;;
  let (kvs, err) := res in
  match err with
  | Some e =>
      ret {| Scan_hdr := set_Error (Scan_hdr reply) (Some e);
             Rows := Rows reply |}
  | None =>
      ret {| Scan_hdr := Scan_hdr reply;
             Rows := map (fun kv => {| KV_Key := key kv;
                                       KV_Value := {| Bytes := value kv |} |})
                         kvs |}
  end.

(** [func (r *Range) EndTransaction(...)] *)
Definition Range_EndTransaction (args : RequestHeader) (reply : ResponseHeader)
  : M ResponseHeader :=
  ret (set_Error reply (Some Error_unimplemented)).

(** [func (r *Range) AccumulateTS(...)] *)
Definition Range_AccumulateTS (args : RequestHeader) (reply : ResponseHeader)
  : M ResponseHeader :=
  ret (set_Error reply (Some Error_unimplemented)).

(** [func (r *Range) ReapQueue(...)] *)
Definition Range_ReapQueue (args : RequestHeader) (reply : ResponseHeader)
  : M ResponseHeader :=
  ret (set_Error reply (Some Error_unimplemented)).

(** [func (r *Range) EnqueueUpdate(...)] *)
Definition Range_EnqueueUpdate (args : RequestHeader) (reply : ResponseHeader)
  : M ResponseHeader :=
  ret (set_Error reply (Some Error_unimplemented)).

(** [func (r *Range) EnqueueMessage(...)] *)
Definition Range_EnqueueMessage (args : RequestHeader) (reply : ResponseHeader)
  : M ResponseHeader :=
  ret (set_Error reply (Some Error_unimplemented)).

(** [func (r *Range) InternalRangeLookup(args *InternalRangeLookupRequest,
    reply *InternalRangeLookupResponse)] *)
Definition Range_InternalRangeLookup (args : RequestHeader)
  (reply : InternalRangeLookupResponse_t) : M InternalRangeLookupResponse_t :=
  let set_err (r : InternalRangeLookupResponse_t) (e : error) :=
    {| Lookup_hdr := set_Error (Lookup_hdr r) (Some e);
       Lookup_EndKey := Lookup_EndKey r; Lookup_Range := Lookup_Range r |} in
  r <- the_range ;;
  if negb (HasPrefix (hKey args) KeyMetaPrefix) then
    ret (set_err reply (Errorf_invalid_metadata_key (hKey args)))
  else if negb (Less (hKey args) (EndKey (Desc (Meta r)))) then
    ret (set_err reply
           (Errorf_key_outside_the_range (RangeID (Meta r))
              (EndKey (Desc (Meta r)))))
  else
    let nextKey := NextKey (hKey args) in
    res <- engine_scan nextKey KeyMax 1 ;;
    let (kvs, err) := res in
    match err with
    | Some e => ret (set_err reply e)
    | None =>
        metaPrefix <- lift (slice_to (hKey args) (List.length KeyMeta1Prefix)) ;;
        match kvs with
        | [kv] =>
            if negb (HasPrefix (key kv) metaPrefix) then
              ret (set_err reply (Errorf_key_not_found_in_range (RangeID (Meta r))))
            else
              let (range, err) :=
                gob_Decode_RangeDescriptor (contents (value kv))
                  (Lookup_Range reply) in
              let reply := {| Lookup_hdr := Lookup_hdr reply;
                              Lookup_EndKey := Lookup_EndKey reply;
                              Lookup_Range := range |} in
              match err with
              | Some e => ret (set_err reply e)
              | None =>
                  if Less (hKey args) (StartKey range) then
                    ret (set_err reply
                           (Errorf_no_range_found_for_key (hKey args) (Meta r)))
                  else
                    ret {| Lookup_hdr := Lookup_hdr reply;
                           Lookup_EndKey := key kv;
                           Lookup_Range := Lookup_Range reply |}
              end
        | _ =>
            ret (set_err reply (Errorf_key_not_found_in_range (RangeID (Meta r))))
        end
    end.

(** The type assertions of [executeCmd] panic when [args] or [reply] is not
    of the method's type. *)
Definition interface_conversion {A} : M A :=
  panic "interface conversion: interface is of another type".

(** The [switch] of [executeCmd]: the handler's reply, or [inr] the error of
    the [default] case, which returns from [executeCmd]. *)
Definition executeCmd_switch (method : string) (args : Args) (reply : Reply)
  : M (Reply + error) :=
  let run {A} (m : M A) (c : A -> Reply) : M (Reply + error) :=
    a <- m ;; ret (inl (c a)) in
  if String.eqb method Contains then
    match args, reply with
    | ContainsRequest a, ContainsResponse r => run (Range_Contains a r) ContainsResponse
    | _, _ => interface_conversion
    end
  else if String.eqb method Get then
    match args, reply with
    | GetRequest a, GetResponse r => run (Range_Get a r) GetResponse
    | _, _ => interface_conversion
    end
  else if String.eqb method Put then
    match args, reply with
    | PutRequest a v, PutResponse r => run (Range_Put a v r) PutResponse
    | _, _ => interface_conversion
    end
  else if String.eqb method ConditionalPut then
    match args, reply with
    | ConditionalPutRequest a v e, ConditionalPutResponse r =>
        run (Range_ConditionalPut a v e r) ConditionalPutResponse
    | _, _ => interface_conversion
    end
  else if String.eqb method Increment then
    match args, reply with
    | IncrementRequest a i, IncrementResponse r =>
        run (Range_Increment a i r) IncrementResponse
    | _, _ => interface_conversion
    end
  else if String.eqb method Delete then
    match args, reply with
    | DeleteRequest a, DeleteResponse r => run (Range_Delete a r) DeleteResponse
    | _, _ => interface_conversion
    end
  else if String.eqb method DeleteRange then
    match args, reply with
    | DeleteRangeRequest a, DeleteRangeResponse r =>
        run (Range_DeleteRange a r) DeleteRangeResponse
    | _, _ => interface_conversion
    end
  else if String.eqb method Scan then
    match args, reply with
    | ScanRequest a m, ScanResponse r => run (Range_Scan a m r) ScanResponse
    | _, _ => interface_conversion
    end
  else if String.eqb method EndTransaction then
    match args, reply with
    | EndTransactionRequest a, EndTransactionResponse r =>
        run (Range_EndTransaction a r) EndTransactionResponse
    | _, _ => interface_conversion
    end
  else if String.eqb method AccumulateTS then
    match args, reply with
    | AccumulateTSRequest a, AccumulateTSResponse r =>
        run (Range_AccumulateTS a r) AccumulateTSResponse
    | _, _ => interface_conversion
    end
  else if String.eqb method ReapQueue then
    match args, reply with
    | ReapQueueRequest a, ReapQueueResponse r =>
        run (Range_ReapQueue a r) ReapQueueResponse
    | _, _ => interface_conversion
    end
  else if String.eqb method EnqueueUpdate then
    match args, reply with
    | EnqueueUpdateRequest a, EnqueueUpdateResponse r =>
        run (Range_EnqueueUpdate a r) EnqueueUpdateResponse
    | _, _ => interface_conversion
    end
  else if String.eqb method EnqueueMessage then
    match args, reply with
    | EnqueueMessageRequest a, EnqueueMessageResponse r =>
        run (Range_EnqueueMessage a r) EnqueueMessageResponse
    | _, _ => interface_conversion
    end
  else if String.eqb method InternalRangeLookup then
    match args, reply with
    | InternalRangeLookupRequest a, InternalRangeLookupResponse r =>
        run (Range_InternalRangeLookup a r) InternalRangeLookupResponse
    | _, _ => interface_conversion
    end
  else ret (inr (Errorf_unrecognized_command_type method)).

(** [func (r *Range) executeCmd(method string, args, reply interface{}) error]:
    the reply as the call leaves it, and the error returned. *)
Definition executeCmd (method : string) (args : Args) (reply : Reply)
  : M (Reply * option error) :=
  res <- executeCmd_switch method args reply ;;
  match res with
  | inr e => ret (reply, Some e)
  | inl reply =>
      (if negb (IsReadOnly method) then
         let cmdID := hCmdID (args_header args) in
         putErr <- call_PutResponse cmdID reply ;;
         match putErr with
         | Some e => emit (glog_Errorf (unable_to_write_result args reply e))
         | None => ret tt
         end
       else ret tt) ;;;
      ret (reply, reply_Error reply)
  end.

(** [func (r *Range) EnqueueCmd(cmd *Cmd) error]: the command is sent on the
    raft channel, [processRaft] receives it and runs [executeCmd], whose
    result comes back on [cmd.done]. The model is of the runs in which
    [processRaft] is serving the channel, where the send and the receive on
    [cmd.done] complete: the call is then the call of [executeCmd]. A run in
    which nothing receives from the channel, and the call never returns, is
    not an outcome of the model; what is proved of [EnqueueCmd] and
    [ReadWriteCmd] is about the calls that return. *)
Definition EnqueueCmd (cmd : Cmd) : M (Reply * option error) :=
  emit (raft_send cmd) ;;;
  executeCmd (Method cmd) (Cmd_Args cmd) (Cmd_Reply cmd).

(** [func (r *Range) ReadOnlyCmd(method string, header *RequestHeader,
    args, reply interface{}) error]. The wait on the read queue's wait
    group is over when the call goes on. *)
Definition ReadOnlyCmd (method : string) (header : RequestHeader)
  (args : Args) (reply : Reply) : M (Reply * option error) :=
  r <- the_range ;;
  let r := with_tsCache
             (ReadTimestampCache.Add (tsCache r) (hKey header) (hEndKey header)
                (hTimestamp header)) r in
  let r := with_readQ
             (ReadQueue.AddRead (readQ r) (hKey header) (hEndKey header)) r in
  set_range r ;;;
  leader <- IsLeader ;;
  if negb leader then ret (reply, Some NotLeaderError)
  else executeCmd method args reply.

(** The timestamp check of [ReadWriteCmd] (the [if] under the lock): [ts] is
    the result of [tsCache.GetMax]. *)
Definition forward_timestamp (ts : Timestamp) (header : RequestHeader)
  (reply : Reply) : RequestHeader * Reply :=
  if Timestamp_Less (hTimestamp header) ts then
    let ts := Logical_incr ts in
    ({| hTimestamp := ts; hCmdID := hCmdID header; hKey := hKey header;
        hEndKey := hEndKey header |},
     set_reply_Timestamp reply ts)
  else (header, reply).

(** The second part of [ReadWriteCmd], from [r.Lock()] on: the timestamp
    check, the pending write, the command sent to raft and the removal of
    the pending write. *)
Definition ReadWriteCmd_submit (method : string) (header : RequestHeader)
  (args : Args) (reply : Reply) : M (RequestHeader * Reply * option error) :=
  r <- the_range ;;
  let ts := ReadTimestampCache.GetMax (tsCache r) (hKey header) (hEndKey header) in
  let (header, reply) := forward_timestamp ts header reply in
  let (q, wKey) := ReadQueue.AddWrite (readQ r) (hKey header) (hEndKey header) in
  set_range (with_readQ q r) ;;;
  let cmd := {| Method := method; Cmd_Args := args; Cmd_Reply := reply;
                ReadOnly := IsReadOnly method |} in
  res <- EnqueueCmd cmd ;;
  let (reply, err) := res in
  r <- the_range ;;
  set_range (with_readQ (ReadQueue.RemoveWrite (readQ r) wKey) r) ;;;
  ret (header, reply, err).

(** [func (r *Range) ReadWriteCmd(method string, header *RequestHeader,
    args, reply interface{}) error]: the header and the reply as the call
    leaves them, and the error returned. The first part is the look-up in
    the response cache. [header] is a parameter of its own, as in the
    source: the model does not take it to be the header embedded in
    [args], and [args] is sent to raft as it was given. *)
Definition ReadWriteCmd (method : string) (header : RequestHeader)
  (args : Args) (reply : Reply) : M (RequestHeader * Reply * option error) :=
  res <- call_GetResponse (hCmdID header) reply ;;
  let '(reply, (ok, err)) := res in
  if ok then ret (header, reply, reply_Error reply)
  else
    match err with
    | Some e => emit (glog_Errorf (unable_to_read_result args e))
    | None => ret tt
    end ;;;
    ReadWriteCmd_submit method header args reply.

(** *** Notions used in the statements *)

(** The six handlers that are placeholders, each with its method name and
    its request and response types. *)
Definition placeholders
  : list (string * (RequestHeader -> ResponseHeader -> M ResponseHeader)
          * (RequestHeader -> Args) * (ResponseHeader -> Reply)) :=
  [ (DeleteRange, Range_DeleteRange, DeleteRangeRequest, DeleteRangeResponse);
    (EndTransaction, Range_EndTransaction, EndTransactionRequest,
     EndTransactionResponse);
    (AccumulateTS, Range_AccumulateTS, AccumulateTSRequest, AccumulateTSResponse);
    (ReapQueue, Range_ReapQueue, ReapQueueRequest, ReapQueueResponse);
    (EnqueueUpdate, Range_EnqueueUpdate, EnqueueUpdateRequest,
     EnqueueUpdateResponse);
    (EnqueueMessage, Range_EnqueueMessage, EnqueueMessageRequest,
     EnqueueMessageResponse) ].

(** A world with another gossip handle and more events: what a rebroadcast
    changes. *)
Definition gossiped (g : G) (evs : list Event) (w : World) : World :=
  {| rng := with_gossip (Some g) (rng w);
     configPrefixes := configPrefixes w;
     trace := trace w ++ evs |}.

(** A world with another response cache and more events. *)
Definition looked_up (rc : RC) (evs : list Event) (w : World) : World :=
  {| rng := with_respCache rc (rng w);
     configPrefixes := configPrefixes w;
     trace := trace w ++ evs |}.

(** A world with another response cache and engine and more events: what
    handing a reply to the response cache changes. *)
Definition cached (rc : RC) (e : E) (evs : list Event) (w : World) : World :=
  {| rng := with_respCache rc (with_engine e (rng w));
     configPrefixes := configPrefixes w;
     trace := trace w ++ evs |}.

(** [w'] has the events of [w] and possibly more after them. *)
Definition trace_ext (w w' : World) : Prop :=
  exists evs, trace w' = trace w ++ evs.

(** A computation that, when it returns, leaves a world related to the one
    it started in. *)
Definition preserves (R : World -> World -> Prop) {A} (m : M A) : Prop :=
  forall w a w', m w = Done a w' -> R w w'.

(** A relation between worlds that holds across any change of the range and
    across any event added. *)
Class Frame (R : World -> World -> Prop) : Prop := {
  frame_pre :: PreOrder R;
  frame_set_range : forall (r : Range) (w : World),
    R w {| rng := r; configPrefixes := configPrefixes w; trace := trace w |};
  frame_emit : forall (ev : Event) (w : World),
    R w {| rng := rng w; configPrefixes := configPrefixes w;
           trace := trace w ++ [ev] |}
}.

(** [w'] has the metadata, the timestamp cache and the read queue of [w]. *)
Definition books_same (w w' : World) : Prop :=
  Meta (rng w') = Meta (rng w)
  /\ tsCache (rng w') = tsCache (rng w)
  /\ readQ (rng w') = readQ (rng w).

(** A relation between worlds that holds across a change of the engine, of
    the gossip handle or of the response cache, and across any event
    added: the changes [executeCmd] makes. *)
Class Keeps (R : World -> World -> Prop) : Prop := {
  keeps_pre :: PreOrder R;
  keeps_engine : forall (e : E) (w : World),
    R w {| rng := with_engine e (rng w); configPrefixes := configPrefixes w;
           trace := trace w |};
  keeps_gossip : forall (g : option G) (w : World),
    R w {| rng := with_gossip g (rng w); configPrefixes := configPrefixes w;
           trace := trace w |};
  keeps_respCache : forall (rc : RC) (w : World),
    R w {| rng := with_respCache rc (rng w); configPrefixes := configPrefixes w;
           trace := trace w |};
  keeps_emit : forall (ev : Event) (w : World),
    R w {| rng := rng w; configPrefixes := configPrefixes w;
           trace := trace w ++ [ev] |}
}.

(** The events of a rebroadcast of the map of [cp], [res] being the result
    of [loadConfigMap] for it: the map is handed to gossip, or the failure
    to load it is logged. *)
Definition rebroadcast_of (cp : configPrefix)
  (res : PrefixConfigMap * option error) (evs : list Event) : Prop :=
  match res with
  | (_, Some e) =>
      In (glog_Errorf (failed_loading_config_map (gossipKey cp) e)) evs
  | (m, None) => In (gossip_AddInfo (gossipKey cp) (Info_PrefixConfigMap m) 0) evs
  end.

(** The events of [executeCmd] after the handler of a write: the reply is
    handed to the response cache, and a failure of that is logged. *)
Definition PutResponse_events (args : Args) (reply : Reply)
  (putErr : option error) : list Event :=
  respCache_PutResponse (hCmdID (args_header args)) reply
  :: match putErr with
     | Some e => [glog_Errorf (unable_to_write_result args reply e)]
     | None => []
     end.


(** A computation whose result, when it returns, satisfies [P]. *)
Definition yields {A} (P : A -> Prop) (m : M A) : Prop :=
  forall w a w', m w = Done a w' -> P a.

(** The world in which [ReadWriteCmd] has the command executed, after a
    look-up in the response cache that found no reply: the response cache
    as the look-up left it, the pending write [q] in the read queue, the
    events [logged] and the command sent to raft. *)
Definition submitted (rc : RC) (q : RQ) (logged : list Event) (cmd : Cmd)
  (w : World) : World :=
  {| rng := with_readQ q (with_respCache rc (rng w));
     configPrefixes := configPrefixes w;
     trace := (trace w ++ logged) ++ [raft_send cmd] |}.

(** The world [ReadWriteCmd] leaves once the command has been executed: the
    pending write under the handle [wKey] is removed from the read queue. *)
Definition completed (wKey : ReadQueue.wkey) (w : World) : World :=
  {| rng := with_readQ (ReadQueue.RemoveWrite (readQ (rng w)) wKey) (rng w);
     configPrefixes := configPrefixes w;
     trace := trace w |}.

End Model.

Arguments Done {E G RC TC RQ A} a w.
Arguments Panicked {E G RC TC RQ A} msg.

(** [args] and [reply] are of the types the [switch] of [executeCmd]
    asserts for [method]. *)
Definition well_typed (method : string) (args : Args) (reply : Reply) : bool :=
  match args, reply with
  | ContainsRequest _, ContainsResponse _ => String.eqb method Contains
  | GetRequest _, GetResponse _ => String.eqb method Get
  | PutRequest _ _, PutResponse _ => String.eqb method Put
  | ConditionalPutRequest _ _ _, ConditionalPutResponse _ =>
      String.eqb method ConditionalPut
  | IncrementRequest _ _, IncrementResponse _ => String.eqb method Increment
  | DeleteRequest _, DeleteResponse _ => String.eqb method Delete
  | DeleteRangeRequest _, DeleteRangeResponse _ => String.eqb method DeleteRange
  | ScanRequest _ _, ScanResponse _ => String.eqb method Scan
  | EndTransactionRequest _, EndTransactionResponse _ =>
      String.eqb method EndTransaction
  | AccumulateTSRequest _, AccumulateTSResponse _ => String.eqb method AccumulateTS
  | ReapQueueRequest _, ReapQueueResponse _ => String.eqb method ReapQueue
  | EnqueueUpdateRequest _, EnqueueUpdateResponse _ =>
      String.eqb method EnqueueUpdate
  | EnqueueMessageRequest _, EnqueueMessageResponse _ =>
      String.eqb method EnqueueMessage
  | InternalRangeLookupRequest _, InternalRangeLookupResponse _ =>
      String.eqb method InternalRangeLookup
  | _, _ => false
  end.

(** The two entry points of a range. *)
Inductive EntryPoint : Type :=
| via_ReadOnlyCmd
| via_ReadWriteCmd.

(** Modelled from the spec: the caller that chooses the entry point is not
    among the sources; "This classification governs whether a request is
    routed through ReadOnlyCmd (bypasses consensus) or ReadWriteCmd (goes
    through consensus and the response cache)". *)
Definition route (method : string) : EntryPoint :=
  if IsReadOnly method then via_ReadOnlyCmd else via_ReadWriteCmd.

(** ** In-memory collaborators

    Instances of the interfaces above on which the model runs on concrete
    inputs. *)

Module Sim.

(** Modelled from the spec: the storage engine (engine.go is not among the
    sources), after the contract "get(key) -> value|absent, put(key, value),
    clear(key), scan(start, end, maxResults) -> ordered sequence of (key,
    value)", every call of which "may fail with an engine-level error". The
    pairs are kept in key order; an engine with [failing] set fails every
    call. *)
Record mem := {
  store : list (Key * list byte);
  failing : bool
}.

Definition engine_failure : error := ExternalError "engine failure".

Fixpoint lookup (k : Key) (l : list (Key * list byte)) : option (list byte) :=
  match l with
  | [] => None
  | (k', v) :: l' => if bytes_Equal k k' then Some v else lookup k l'
  end.

Fixpoint insert (k : Key) (v : list byte) (l : list (Key * list byte))
  : list (Key * list byte) :=
  match l with
  | [] => [(k, v)]
  | (k', v') :: l' =>
      if Less k k' then (k, v) :: l
      else if bytes_Equal k k' then (k, v) :: l'
      else (k', v') :: insert k v l'
  end.

Definition remove (k : Key) (l : list (Key * list byte)) : list (Key * list byte) :=
  filter (fun kv => negb (bytes_Equal k (fst kv))) l.

Definition mem_get (e : mem) (k : Key) : byteslice * option error :=
  if failing e then (None, Some engine_failure) else (lookup k (store e), None).

Definition mem_put (e : mem) (k : Key) (v : byteslice) : mem * option error :=
  if failing e then (e, Some engine_failure)
  else ({| store := insert k (contents v) (store e); failing := false |}, None).

Definition mem_clear (e : mem) (k : Key) : mem * option error :=
  if failing e then (e, Some engine_failure)
  else ({| store := remove k (store e); failing := false |}, None).

Definition mem_scan (e : mem) (start end_ : Key) (max : Z)
  : list rawKeyValue * option error :=
  if failing e then ([], Some engine_failure)
  else
    let within :=
      filter (fun kv => negb (Less (fst kv) start) && Less (fst kv) end_)
        (store e) in
    let limited := if max =? 0 then within else firstn (Z.to_nat max) within in
    (map (fun kv => {| key := fst kv; value := Some (snd kv) |}) limited, None).

#[global] Instance mem_engine : Engine.t mem := {|
  Engine.get := mem_get;
  Engine.put := mem_put;
  Engine.clear := mem_clear;
  Engine.scan := mem_scan
|}.

(** Modelled from the spec: the response cache (response_cache.go is not
    among the sources), after section 4.3: [GetResponse] is not found, found
    (the stored reply is decoded into the reply given) or a decode failure;
    [PutResponse] stores the reply under the command identifier. An entry
    that does not decode is kept as [None]. *)
Definition rcache := list (ClientCmdID * option Reply).

Definition CmdID_eqb (a b : ClientCmdID) : bool :=
  (CmdID_WallTime a =? CmdID_WallTime b) && (CmdID_Random a =? CmdID_Random b).

Fixpoint rc_find (c : ClientCmdID) (rc : rcache) : option (option Reply) :=
  match rc with
  | [] => None
  | (c', r) :: rc' => if CmdID_eqb c c' then Some r else rc_find c rc'
  end.

Definition rc_GetResponse (rc : rcache) (e : mem) (c : ClientCmdID) (reply : Reply)
  : rcache * Reply * (bool * option error) :=
  match rc_find c rc with
  | None => (rc, reply, (false, None))
  | Some (Some stored) => (rc, stored, (true, None))
  | Some None => (rc, reply, (false, Some (ExternalError "gob: decode failure")))
  end.

Definition rc_PutResponse (rc : rcache) (e : mem) (c : ClientCmdID) (reply : Reply)
  : rcache * mem * option error :=
  ((c, Some reply) :: rc, e, None).

#[global] Instance rcache_ops : ResponseCache.t rcache mem := {|
  ResponseCache.GetResponse := rc_GetResponse;
  ResponseCache.PutResponse := rc_PutResponse
|}.

(** Modelled from the spec: the read timestamp cache
    (read_timestamp_cache.go is not among the sources), after section 4.1:
    [Add] records a read over a key range at a timestamp, [GetMax] returns
    "the maximum recorded timestamp that overlaps [start,end), or a
    zero/minimum timestamp if none"; an empty end key makes the single-key
    range of the start key. *)
Definition tcache := list (Key * Key * Timestamp).

Definition covers (start end_ k : Key) : bool :=
  if (List.length end_ =? 0)%nat then bytes_Equal k start
  else negb (Less k start) && Less k end_.

Definition overlaps (s1 e1 s2 e2 : Key) : bool :=
  if (List.length e1 =? 0)%nat then covers s2 e2 s1
  else if (List.length e2 =? 0)%nat then covers s1 e1 s2
  else Less s1 e2 && Less s2 e1.

Definition Timestamp_max (a b : Timestamp) : Timestamp :=
  if Timestamp_Less a b then b else a.

Definition tc_GetMax (tc : tcache) (start end_ : Key) : Timestamp :=
  fold_left
    (fun acc ent =>
       let '(s, e, ts) := ent in
       if overlaps s e start end_ then Timestamp_max acc ts else acc)
    tc {| WallTime := 0; Logical := 0 |}.

#[global] Instance tcache_ops : ReadTimestampCache.t tcache := {|
  ReadTimestampCache.Add := fun tc s e ts => (s, e, ts) :: tc;
  ReadTimestampCache.GetMax := tc_GetMax
|}.

(** Modelled from the spec: the read queue (read_queue.go is not among the
    sources), after section 4.2: pending writes are registered under a
    handle and removed by it. *)
Record rqueue := {
  pending : list (Z * (Key * Key));
  next_handle : Z
}.

#[global] Instance rqueue_ops : ReadQueue.t rqueue := {|
  ReadQueue.wkey := Z;
  ReadQueue.AddRead := fun q _ _ => q;
  ReadQueue.AddWrite := fun q s e =>
    ({| pending := (next_handle q, (s, e)) :: pending q;
        next_handle := next_handle q + 1 |}, next_handle q);
  ReadQueue.RemoveWrite := fun q h =>
    {| pending := filter (fun p => negb (fst p =? h)) (pending q);
       next_handle := next_handle q |}
|}.

(** Modelled from the spec: gossip (package gossip is not among the
    sources), after the contract "addInfo(key, value, timeToLive)": the
    infos published, oldest first. *)
Definition infos := list (string * Info).

#[global] Instance infos_ops : Gossip.t infos := {|
  Gossip.AddInfo := fun g k v _ => (g ++ [(k, v)], None)
|}.

(** The counter is taken to be an unsigned 32-bit integer. *)
#[global] Instance uint32_counter : LogicalCounter := {|
  Logical_min := 0;
  Logical_max := 2 ^ 32 - 1
|}.

Definition meta_prefix : Key := [x00; x00] ++ bytes_of "meta".

(** The key after the last key with the given prefix. *)
Fixpoint prefix_end (k : list byte) : option (list byte) :=
  match k with
  | [] => None
  | b :: k' =>
      match prefix_end k' with
      | Some k'' => Some (b :: k'')
      | None =>
          if Byte.eqb b xff then None
          else match Byte.of_N (Byte.to_N b + 1) with
               | Some b' => Some [b']
               | None => None
               end
      end
  end.

(** A 64-bit integer as eight bytes, most significant first. *)
Definition encode_int64 (z : Z) : list byte :=
  map (fun i =>
         match Byte.of_N (Z.to_N ((z mod 2 ^ 64) / 2 ^ (8 * (7 - i)) mod 256)) with
         | Some b => b
         | None => x00
         end)
      [0; 1; 2; 3; 4; 5; 6; 7].

Definition decode_int64 (bs : list byte) : Z :=
  let u := fold_left (fun acc b => acc * 256 + Z.of_N (Byte.to_N b)) bs 0 in
  if u <? 2 ^ 63 then u else u - 2 ^ 64.

Definition mem_increment (e : mem) (k : Key) (inc : Z) : mem * (Z * option error) :=
  match mem_get e k with
  | (_, Some err) => (e, (0, Some err))
  | (val, None) =>
      let old := match val with Some bs => decode_int64 bs | None => 0 end in
      let new := decode_int64 (encode_int64 (old + inc)) in
      let (e', err) := mem_put e k (Some (encode_int64 new)) in
      (e', (new, err))
  end.

(** A descriptor is written as the length of its start key (one byte), the
    start key and the end key. *)
Definition decode_descriptor (bs : list byte) (target : RangeDescriptor)
  : RangeDescriptor * option error :=
  match bs with
  | [] => (target, Some (ExternalError "EOF"))
  | n :: rest =>
      let n := N.to_nat (Byte.to_N n) in
      if (n <=? List.length rest)%nat then
        ({| StartKey := firstn n rest; EndKey := skipn n rest;
            Replicas := Replicas target |}, None)
      else (target, Some (ExternalError "unexpected EOF"))
  end.

Definition encode_descriptor (start end_ : Key) : list byte :=
  match Byte.of_N (N.of_nat (List.length start)) with
  | Some n => n :: start ++ end_
  | None => []
  end.

(** A config decodes from any non-empty value; an accounting config takes
    the value as its cluster ID. *)
Definition decode_config (bs : list byte) (target : Config)
  : Config * option error :=
  match bs with
  | [] => (target, Some (ExternalError "EOF"))
  | _ :: _ =>
      match target with
      | Config_Acct _ =>
          (Config_Acct {| Acct_ClusterID := string_of_list_byte bs |}, None)
      | _ => (target, None)
      end
  end.

(** Modelled from the spec: the constants and functions of keys.go,
    engine.go, config.go's [NewPrefixConfigMap] and the gob decoder, none of
    which is among the sources. range.go gives the form of a metadata key as
    "\0\0meta[12]<encoded_key>"; the spec's Increment "parses the existing
    value as a signed integer (absent = 0), adds a delta, stores and returns
    the new value". *)
#[global] Instance package : Package mem := {|
  KeyMin := [];
  KeyMax := [xff; xff];
  KeyMetaPrefix := meta_prefix;
  KeyMeta1Prefix := meta_prefix ++ bytes_of "1";
  KeyConfigAccountingPrefix := x00 :: bytes_of "acct";
  KeyConfigPermissionPrefix := x00 :: bytes_of "perm";
  KeyConfigZonePrefix := x00 :: bytes_of "zone";
  gossip_KeyConfigAccounting := "accounting";
  gossip_KeyConfigPermission := "permissions";
  gossip_KeyConfigZone := "zones";
  NextKey := fun k => k ++ [x00];
  PrefixEndKey := fun k =>
    match prefix_end k with Some e => e | None => [xff; xff] end;
  increment := mem_increment;
  NewPrefixConfigMap := fun configs => (configs, None);
  gob_Decode_RangeDescriptor := decode_descriptor;
  gob_Decode_Config := decode_config
|}.

Definition world := @World mem infos rcache tcache rqueue.

(** A range over the whole key space on an empty engine, with or without a
    gossip handle. *)
Definition empty_range (g : option infos) : @Range mem infos rcache tcache rqueue :=
  {| Meta := {| Desc := {| StartKey := []; EndKey := [xff; xff]; Replicas := [] |};
                ClusterID := "cluster"; RangeID := 1 |};
     engine := {| store := []; failing := false |};
     gossip := g;
     readQ := {| pending := []; next_handle := 0 |};
     tsCache := [];
     respCache := [] |}.

Definition world0 (g : option infos) : world :=
  {| rng := empty_range g; configPrefixes := configPrefixes_decl; trace := [] |}.

Definition header0 (k : Key) (wall : Z) : RequestHeader :=
  {| hTimestamp := {| WallTime := wall; Logical := 0 |};
     hCmdID := {| CmdID_WallTime := wall; CmdID_Random := 1 |};
     hKey := k; hEndKey := [] |}.

Definition rheader0 : ResponseHeader :=
  {| Error := None; rTimestamp := {| WallTime := 0; Logical := 0 |} |}.

(** Commands on the in-memory collaborators. *)
Definition cmd (A : Type) : Type := @M mem infos rcache tcache rqueue A.

Definition timestamp (wall logical : Z) : Timestamp :=
  {| WallTime := wall; Logical := logical |}.

Definition value_of (s : string) : Value := {| Bytes := Some (bytes_of s) |}.

Definition get_reply0 : Reply :=
  GetResponse {| Get_hdr := rheader0; Get_Value := {| Bytes := None |} |}.

Definition cput_reply0 : ConditionalPutResponse_t :=
  {| CPut_hdr := rheader0; ActualValue := None |}.

Definition lookup_reply0 : InternalRangeLookupResponse_t :=
  {| Lookup_hdr := rheader0; Lookup_EndKey := [];
     Lookup_Range := {| StartKey := []; EndKey := []; Replicas := [] |} |}.

(** A key under the zone configuration prefix, and the table's entry for
    that prefix. *)
Definition zone_key : Key := x00 :: bytes_of "zonefoo".


(** A world whose engine holds the given pairs. *)
Definition world_with (pairs : list (Key * list byte)) : world :=
  {| rng := with_engine {| store := pairs; failing := false |} (empty_range None);
     configPrefixes := configPrefixes_decl;
     trace := [] |}.

(** A world whose response cache holds the given entries. *)
Definition world_cached (entries : rcache) : world :=
  {| rng := with_respCache entries (empty_range None);
     configPrefixes := configPrefixes_decl;
     trace := [] |}.

(** A world whose timestamp cache holds a read of the key "a" at the given
    timestamp. *)
Definition world_read_at (ts : Timestamp) : world :=
  {| rng := with_tsCache [(bytes_of "a", [], ts)] (empty_range None);
     configPrefixes := configPrefixes_decl;
     trace := [] |}.


(** The metadata record of the range from the least key to "m": its key is
    the level-1 prefix followed by the end key. *)
Definition meta1_record : Key * list byte :=
  (meta_prefix ++ bytes_of "1m", encode_descriptor [] (bytes_of "m")).

End Sim.

(** * Properties *)

(** ** The order on keys *)

Lemma bytes_compare_refl (a : list byte) : bytes_compare a a = Eq.
Proof.
  induction a as [|x a IH]; simpl; [reflexivity|].
  now rewrite N.compare_refl.
Qed.

Lemma bytes_compare_eq (a b : list byte) : bytes_compare a b = Eq -> a = b.
Proof.
  revert b; induction a as [|x a IH]; intros [|y b]; simpl;
    try discriminate; [reflexivity|].
  destruct (N.compare (Byte.to_N x) (Byte.to_N y)) eqn:Hxy; try discriminate.
  intros Hab. apply N.compare_eq in Hxy.
  assert (Some x = Some y) as Heq
    by (rewrite <- (Byte.of_to_N x), <- (Byte.of_to_N y); now rewrite Hxy).
  injection Heq as ->. f_equal. now apply IH.
Qed.

Lemma bytes_compare_antisym (a b : list byte) :
  bytes_compare b a = CompOpp (bytes_compare a b).
Proof.
  revert b; induction a as [|x a IH]; intros [|y b]; simpl; try reflexivity.
  rewrite (N.compare_antisym (Byte.to_N x) (Byte.to_N y)).
  destruct (N.compare (Byte.to_N x) (Byte.to_N y)); simpl; auto.
Qed.

Lemma Less_irrefl (k : Key) : Less k k = false.
Proof. unfold Less. now rewrite bytes_compare_refl. Qed.

Lemma bytes_Equal_refl (k : list byte) : bytes_Equal k k = true.
Proof. unfold bytes_Equal. now rewrite bytes_compare_refl. Qed.

Lemma bytes_Equal_eq (a b : list byte) : bytes_Equal a b = true <-> a = b.
Proof.
  unfold bytes_Equal. split.
  - destruct (bytes_compare a b) eqn:Hc; try discriminate.
    intros _. now apply bytes_compare_eq.
  - intros ->. now rewrite bytes_compare_refl.
Qed.

(** [l] is not below [k] exactly when [k] is below [l] or equal to it. *)
Lemma not_Less_iff (k l : Key) :
  negb (Less l k) = Less k l || bytes_Equal k l.
Proof.
  unfold Less, bytes_Equal. rewrite (bytes_compare_antisym k l).
  now destruct (bytes_compare k l).
Qed.

Lemma HasPrefix_length (s p : list byte) :
  HasPrefix s p = true -> (List.length p <= List.length s)%nat.
Proof.
  revert s; induction p as [|x p IH]; intros [|y s]; simpl; try lia;
    try discriminate.
  intros H. apply andb_true_iff in H as [_ H]. apply IH in H. lia.
Qed.

Lemma HasPrefix_refl (s : list byte) : HasPrefix s s = true.
Proof.
  induction s as [|x s IH]; simpl; [reflexivity|].
  rewrite IH, andb_true_r. now apply Byte.byte_dec_lb.
Qed.

(** ** Method classification *)

(** C9. Over the fourteen methods of the API, [IsReadOnly] holds for
    Contains, Get, Scan and InternalRangeLookup and for no other; it is the
    negation of [NeedWritePerm] at every method name; the ten other methods
    are writes; a read-only method is routed to [ReadOnlyCmd], a write to
    [ReadWriteCmd]. *)
Theorem IsReadOnly_matches_operation_surface :
  filter IsReadOnly methods = [Contains; Get; Scan; InternalRangeLookup]
  /\ filter (fun m => negb (IsReadOnly m)) methods
     = [Put; ConditionalPut; Increment; Delete; DeleteRange; EndTransaction;
        AccumulateTS; ReapQueue; EnqueueUpdate; EnqueueMessage]
  /\ (forall m, IsReadOnly m = negb (NeedWritePerm m))
  /\ Forall (fun m => route m = via_ReadOnlyCmd)
       [Contains; Get; Scan; InternalRangeLookup]
  /\ Forall (fun m => route m = via_ReadWriteCmd)
       [Put; ConditionalPut; Increment; Delete; DeleteRange; EndTransaction;
        AccumulateTS; ReapQueue; EnqueueUpdate; EnqueueMessage].
Proof.
  repeat split; try reflexivity.
  - repeat constructor.
  - repeat constructor.
Qed.

(** Outside the fourteen methods: a name that is not a key of [writeMethods]
    is read-only for [IsReadOnly], whatever it is. *)
Lemma IsReadOnly_of_other_names (m : string) :
  ~ In m writeMethods -> IsReadOnly m = true.
Proof.
  intros Hnot. unfold IsReadOnly, NeedWritePerm, has_key.
  destruct (existsb (String.eqb m) writeMethods) eqn:Hex; [|reflexivity].
  apply existsb_exists in Hex as (x & Hin & Heq).
  apply String.eqb_eq in Heq. now subst x.
Qed.

(** ** Key containment *)

(** With an empty end key, [ContainsKeyRange] holds from the start key of
    the descriptor up to its end key, the end key included. *)
Lemma ContainsKeyRange_empty_end (r : RangeDescriptor) (k : Key) :
  RangeDescriptor_ContainsKeyRange r k []
  = Returns (negb (Less k (StartKey r)) && negb (Less (EndKey r) k)).
Proof.
  unfold RangeDescriptor_ContainsKeyRange. simpl.
  now rewrite Less_irrefl.
Qed.

(** X3. With an empty end key, [ContainsKeyRange] of a key returns without
    panic, and returns [ContainsKey] of the key at every key but the end key
    of the descriptor, where it is true when the start key is not above it. *)
Lemma ContainsKeyRange_empty_end_ContainsKey (r : RangeDescriptor) (k : Key) :
  RangeDescriptor_ContainsKeyRange r k []
  = Returns (RangeDescriptor_ContainsKey r k
             || (negb (Less k (StartKey r)) && bytes_Equal k (EndKey r))).
Proof.
  rewrite ContainsKeyRange_empty_end. unfold RangeDescriptor_ContainsKey.
  rewrite (not_Less_iff k (EndKey r)). f_equal.
  destruct (Less k (StartKey r)), (Less k (EndKey r)); reflexivity.
Qed.

Lemma ContainsKeyRange_at_EndKey (r : RangeDescriptor) :
  Less (EndKey r) (StartKey r) = false ->
  RangeDescriptor_ContainsKeyRange r (EndKey r) [] = Returns true
  /\ RangeDescriptor_ContainsKey r (EndKey r) = false.
Proof.
  intros H. rewrite ContainsKeyRange_empty_end.
  unfold RangeDescriptor_ContainsKey. now rewrite H, Less_irrefl.
Qed.

(** C10. For the descriptor of the range from "a" to "c" and the key "c"
    with an empty end key, [ContainsKeyRange] returns true, while
    [ContainsKey] of "c" is false: the single-key query at the end key of
    the descriptor is answered as contained. *)
Theorem ContainsKeyRange_single_key_at_end_key :
  let r := {| StartKey := bytes_of "a"; EndKey := bytes_of "c"; Replicas := [] |} in
  Less (EndKey r) (StartKey r) = false
  /\ RangeDescriptor_ContainsKeyRange r (bytes_of "c") [] = Returns true
  /\ RangeDescriptor_ContainsKey r (bytes_of "c") = false.
Proof. repeat split. Qed.

(** ** More on the order of keys *)

Lemma bytes_compare_Lt_le (a b c : list byte) :
  bytes_compare a b = Lt -> bytes_compare b c <> Gt -> bytes_compare a c = Lt.
Proof.
  revert b c; induction a as [|x a IH]; intros [|y b] [|z c]; simpl;
    try congruence.
  destruct (N.compare_spec (Byte.to_N x) (Byte.to_N y)) as [Hxy|Hxy|Hxy];
    destruct (N.compare_spec (Byte.to_N y) (Byte.to_N z)) as [Hyz|Hyz|Hyz];
    try congruence; intros Hab Hbc.
  - rewrite Hxy, Hyz, N.compare_refl. now apply (IH b c).
  - rewrite Hxy. now apply N.compare_lt_iff in Hyz as ->.
  - replace (Byte.to_N x ?= Byte.to_N z)%N with Lt; [reflexivity|].
    symmetry. apply N.compare_lt_iff. lia.
  - replace (Byte.to_N x ?= Byte.to_N z)%N with Lt; [reflexivity|].
    symmetry. apply N.compare_lt_iff. lia.
Qed.

Lemma bytes_compare_le_Lt (a b c : list byte) :
  bytes_compare a b <> Gt -> bytes_compare b c = Lt -> bytes_compare a c = Lt.
Proof.
  intros Hab Hbc.
  destruct (bytes_compare a b) eqn:Hc; [| |congruence].
  - apply bytes_compare_eq in Hc. now subst b.
  - apply (bytes_compare_Lt_le a b c Hc). congruence.
Qed.

Lemma bytes_compare_le_le (a b c : list byte) :
  bytes_compare a b <> Gt -> bytes_compare b c <> Gt -> bytes_compare a c <> Gt.
Proof.
  intros Hab Hbc.
  destruct (bytes_compare b c) eqn:Hc; [| |congruence].
  - apply bytes_compare_eq in Hc. now subst c.
  - rewrite (bytes_compare_le_Lt a b c Hab Hc). discriminate.
Qed.

Lemma Less_iff (k l : Key) : Less k l = true <-> bytes_compare k l = Lt.
Proof. unfold Less. destruct (bytes_compare k l); split; congruence. Qed.

Lemma not_Less_iff_le (k l : Key) : Less l k = false <-> bytes_compare k l <> Gt.
Proof.
  unfold Less. rewrite (bytes_compare_antisym k l).
  destruct (bytes_compare k l); simpl; split; congruence.
Qed.

Lemma Less_trans (a b c : Key) :
  Less a b = true -> Less b c = true -> Less a c = true.
Proof.
  rewrite !Less_iff. intros Hab Hbc.
  apply (bytes_compare_Lt_le a b c Hab). congruence.
Qed.

(** [a < b] and [b <= c] give [a < c]. *)
Lemma Less_le_trans (a b c : Key) :
  Less a b = true -> Less c b = false -> Less a c = true.
Proof.
  rewrite !Less_iff, not_Less_iff_le. apply bytes_compare_Lt_le.
Qed.

(** [a <= b] and [b < c] give [a < c]. *)
Lemma le_Less_trans (a b c : Key) :
  Less b a = false -> Less b c = true -> Less a c = true.
Proof.
  rewrite !Less_iff, not_Less_iff_le. apply bytes_compare_le_Lt.
Qed.

(** [a <= b] and [b <= c] give [a <= c]. *)
Lemma le_le_trans (a b c : Key) :
  Less b a = false -> Less c b = false -> Less c a = false.
Proof.
  rewrite !not_Less_iff_le. apply bytes_compare_le_le.
Qed.

(** ** config.go: key containment of a descriptor *)

(** X1. A descriptor contains a half-open interval: never its end key, its start
    key exactly when the start key is below the end key, and no key at all
    otherwise. *)
Theorem ContainsKey_half_open (r : RangeDescriptor) :
  RangeDescriptor_ContainsKey r (EndKey r) = false
  /\ RangeDescriptor_ContainsKey r (StartKey r) = Less (StartKey r) (EndKey r)
  /\ (Less (StartKey r) (EndKey r) = false ->
      forall k, RangeDescriptor_ContainsKey r k = false).
Proof.
  unfold RangeDescriptor_ContainsKey. repeat apply conj.
  - rewrite Less_irrefl. apply andb_false_r.
  - now rewrite Less_irrefl.
  - intros Hempty k.
    destruct (Less k (StartKey r)) eqn:Hks; [reflexivity|]. simpl.
    destruct (Less k (EndKey r)) eqn:Hke; [|reflexivity].
    rewrite (le_Less_trans _ _ _ Hks Hke) in Hempty. discriminate.
Qed.

(** X2. For a non-empty end key above the start key, [ContainsKeyRange] returns,
    and returns true exactly when the descriptor contains every key from
    [start] up to [end], [end] excluded. *)
Theorem ContainsKeyRange_proper_range (r : RangeDescriptor) (start end_ : Key) :
  end_ <> [] ->
  Less start end_ = true ->
  exists b,
    RangeDescriptor_ContainsKeyRange r start end_ = Returns b
    /\ (b = true <->
        forall k, Less k start = false -> Less k end_ = true ->
                  RangeDescriptor_ContainsKey r k = true).
Proof.
  intros Hne Hlt. unfold RangeDescriptor_ContainsKeyRange.
  destruct end_ as [|e0 end_]; [contradiction|]. simpl List.length. simpl Nat.eqb.
  cbv iota. set (e := e0 :: end_) in *.
  assert (Less e start = false) as Hes.
  { apply not_Less_iff_le. apply Less_iff in Hlt. congruence. }
  rewrite Hes. eexists. split; [reflexivity|].
  unfold RangeDescriptor_ContainsKey.
  rewrite andb_true_iff, !negb_true_iff. split.
  - intros [Hstart Hend] k Hks Hke.
    rewrite (le_le_trans _ _ _ Hstart Hks). simpl.
    exact (Less_le_trans _ _ _ Hke Hend).
  - intros Hall. pose proof (Hall start (Less_irrefl start) Hlt) as Hs.
    apply andb_true_iff in Hs as [Hs1 Hs2]. apply negb_true_iff in Hs1.
    split; [exact Hs1|].
    destruct (Less (EndKey r) e) eqn:Hee; [|reflexivity].
    assert (Less (EndKey r) start = false) as Hle.
    { apply not_Less_iff_le. apply Less_iff in Hs2. congruence. }
    pose proof (Hall (EndKey r) Hle Hee) as Hbad.
    rewrite Less_irrefl, andb_false_r in Hbad. discriminate.
Qed.

(** ** config.go: attributes *)

Lemma has_key_In (m : list string) (s : string) : has_key m s = true <-> In s m.
Proof.
  unfold has_key. rewrite existsb_exists. split.
  - intros (x & Hin & Heq). apply String.eqb_eq in Heq. now subst x.
  - intros Hin. exists s. split; [exact Hin | apply String.eqb_refl].
Qed.

Lemma IsSubset_incl (a b : Attributes) :
  IsSubset a b = true <-> forall s, In s a -> In s b.
Proof.
  unfold IsSubset. rewrite forallb_forall.
  split; intros Hall s Hin; apply has_key_In; auto.
Qed.

(** X4. [a.IsSubset(b)] holds exactly when every attribute of the receiver [a]
    is an attribute of the argument [b]; so it holds for an empty receiver,
    of a list with itself, and through a third list. *)
Theorem IsSubset_iff (a b : Attributes) :
  (IsSubset a b = true <-> forall s, In s a -> In s b)
  /\ IsSubset [] b = true
  /\ IsSubset a a = true
  /\ (forall c, IsSubset a b = true -> IsSubset b c = true ->
                IsSubset a c = true).
Proof.
  repeat apply conj.
  - apply IsSubset_incl.
  - apply IsSubset_incl.
  - reflexivity.
  - apply IsSubset_incl. auto.
  - intros c Hab Hbc. apply IsSubset_incl. intros s Hin.
    apply (proj1 (IsSubset_incl b c) Hbc).
    now apply (proj1 (IsSubset_incl a b) Hab).
Qed.

(** X5. The combined attributes of a store are the node's followed by the
    store's: both lists are subsets of it, and it is a subset of a list
    exactly when both are. *)
Theorem CombinedAttrs_subsets (s : StoreDescriptor) (b : Attributes) :
  IsSubset (Node_Attrs (Node s)) (CombinedAttrs s) = true
  /\ IsSubset (Store_Attrs s) (CombinedAttrs s) = true
  /\ IsSubset (CombinedAttrs s) b
     = IsSubset (Node_Attrs (Node s)) b && IsSubset (Store_Attrs s) b.
Proof.
  unfold CombinedAttrs. repeat apply conj.
  - apply IsSubset_incl. intros x Hin. apply in_or_app. now left.
  - apply IsSubset_incl. intros x Hin. apply in_or_app. now right.
  - unfold IsSubset. apply forallb_app.
Qed.

(** *** SortedString *)

Lemma string_le_total (a b : string) : string_le a b = false -> string_le b a = true.
Proof.
  unfold string_le.
  rewrite (bytes_compare_antisym (list_byte_of_string a) (list_byte_of_string b)).
  now destruct (bytes_compare (list_byte_of_string a) (list_byte_of_string b)).
Qed.

Lemma string_le_trans (a b c : string) :
  string_le a b = true -> string_le b c = true -> string_le a c = true.
Proof.
  unfold string_le. intros Hab Hbc.
  pose proof (bytes_compare_le_le (list_byte_of_string a) (list_byte_of_string b)
                (list_byte_of_string c)) as Htrans.
  destruct (bytes_compare (list_byte_of_string a) (list_byte_of_string b));
    destruct (bytes_compare (list_byte_of_string b) (list_byte_of_string c));
    destruct (bytes_compare (list_byte_of_string a) (list_byte_of_string c));
    try reflexivity; try discriminate;
    exfalso; apply Htrans; congruence.
Qed.

Lemma string_le_antisym (a b : string) :
  string_le a b = true -> string_le b a = true -> a = b.
Proof.
  unfold string_le.
  rewrite (bytes_compare_antisym (list_byte_of_string a) (list_byte_of_string b)).
  destruct (bytes_compare (list_byte_of_string a) (list_byte_of_string b)) eqn:Hc;
    simpl; try discriminate.
  intros _ _. apply bytes_compare_eq in Hc.
  rewrite <- (string_of_list_byte_of_string a), <- (string_of_list_byte_of_string b).
  now rewrite Hc.
Qed.

Lemma sort_insert_perm (x : string) (l : list string) :
  Permutation (x :: l) (sort_insert x l).
Proof.
  induction l as [|y l IH]; simpl; [reflexivity|].
  destruct (string_le x y); [reflexivity|].
  rewrite perm_swap. now apply perm_skip.
Qed.

Lemma sort_Strings_perm (l : list string) : Permutation l (sort_Strings l).
Proof.
  induction l as [|x l IH]; simpl; [reflexivity|].
  rewrite <- sort_insert_perm. now apply perm_skip.
Qed.

Lemma sort_insert_increasing (x : string) (l : list string) :
  increasing l -> increasing (sort_insert x l).
Proof.
  unfold increasing. induction l as [|y l IH]; intros Hl; simpl.
  - repeat constructor.
  - inversion Hl as [|y' l' Hl' Hall]; subst.
    destruct (string_le x y) eqn:Hxy.
    + constructor; [exact Hl|]. constructor; [exact Hxy|].
      eapply Forall_impl; [|exact Hall]. intros z Hyz.
      exact (string_le_trans _ _ _ Hxy Hyz).
    + constructor; [now apply IH|].
      apply (Permutation_Forall (sort_insert_perm x l)).
      constructor; [now apply string_le_total | exact Hall].
Qed.

Lemma sort_Strings_increasing (l : list string) : increasing (sort_Strings l).
Proof.
  induction l as [|x l IH]; simpl; [constructor|].
  now apply sort_insert_increasing.
Qed.

(** Two increasing lists with the same strings, each as many times, are the
    same list. *)
Lemma increasing_unique (l l' : list string) :
  increasing l -> increasing l' -> Permutation l l' -> l = l'.
Proof.
  unfold increasing. revert l'.
  induction l as [|x l IH]; intros l' Hl Hl' Hperm.
  - now apply Permutation_nil in Hperm.
  - destruct l' as [|y l'].
    + symmetry in Hperm. now apply Permutation_nil in Hperm.
    + inversion Hl as [|? ? Hl1 Hall]; subst.
      inversion Hl' as [|? ? Hl1' Hall']; subst.
      assert (x = y) as ->.
      { assert (In y (x :: l)) as Hy
          by (apply (Permutation_in _ (Permutation_sym Hperm)); now left).
        assert (In x (y :: l')) as Hx
          by (apply (Permutation_in _ Hperm); now left).
        destruct Hy as [Hy|Hy]; [exact Hy|].
        destruct Hx as [Hx|Hx]; [now symmetry|].
        rewrite Forall_forall in Hall, Hall'.
        apply string_le_antisym; auto. }
      f_equal. apply IH; auto. now apply Permutation_cons_inv in Hperm.
Qed.

(** X6. The result of [SortedString] does not depend on the order in which the
    loop over the map visits its keys: whatever the order, it is the string
    the model computes. *)
Theorem SortedString_any_map_order (a : Attributes) (keys : list string) :
  NoDup keys ->
  (forall s, In s keys <-> In s a) ->
  SortedString_of_keys keys = SortedString a.
Proof.
  intros Hnodup Hsame. unfold SortedString, SortedString_of_keys. f_equal.
  apply increasing_unique; try apply sort_Strings_increasing.
  rewrite <- !sort_Strings_perm.
  apply NoDup_Permutation; [exact Hnodup | apply NoDup_nodup|].
  intros s. rewrite Hsame. symmetry. apply nodup_In.
Qed.

(** X7. [SortedString] joins with commas a list that is in increasing order,
    without duplicates, and holds the attributes of [a] and no other string;
    two attribute lists with the same attributes, in whatever order and how
    many times each, give the same string. *)
Theorem SortedString_canonical (a : Attributes) :
  exists attrs,
    SortedString a = Join attrs ","
    /\ increasing attrs
    /\ NoDup attrs
    /\ (forall s, In s attrs <-> In s a)
    /\ (forall b, (forall s, In s a <-> In s b) -> SortedString b = SortedString a).
Proof.
  exists (sort_Strings (nodup string_dec a)). repeat apply conj.
  - reflexivity.
  - apply sort_Strings_increasing.
  - apply (Permutation_NoDup (sort_Strings_perm _)). apply NoDup_nodup.
  - intros s. rewrite <- (nodup_In string_dec a s). split; intros Hin.
    + now apply (Permutation_in _ (Permutation_sym (sort_Strings_perm _))).
    + now apply (Permutation_in _ (sort_Strings_perm _)).
  - intros b Hsame. unfold SortedString, SortedString_of_keys. f_equal.
    apply increasing_unique; try apply sort_Strings_increasing.
    rewrite <- !sort_Strings_perm.
    apply NoDup_Permutation; try apply NoDup_nodup.
    intros s. rewrite !nodup_In. symmetry. apply Hsame.
Qed.

(** *** ChooseRandomReplica *)

(** X8. No replica is chosen from an empty slice; from a non-empty one, when
    [Intn] gives an index below its argument, a replica of the slice is
    chosen and the indexing does not panic. *)
Theorem ChooseRandomReplica_member (Intn : Z -> Z) (replicas : list Replica) :
  (forall n, 0 < n -> 0 <= Intn n < n) ->
  match replicas with
  | [] => ChooseRandomReplica Intn replicas = Returns None
  | _ :: _ =>
      exists r, ChooseRandomReplica Intn replicas = Returns (Some r)
                /\ In r replicas
  end.
Proof.
  intros Hintn. destruct replicas as [|r0 rs]; [reflexivity|].
  unfold ChooseRandomReplica. set (l := r0 :: rs).
  assert (0 < Z.of_nat (List.length l)) as Hpos by (simpl; lia).
  replace (List.length l =? 0)%nat with false by (symmetry; apply Nat.eqb_neq; simpl; lia).
  specialize (Hintn _ Hpos).
  replace (Intn (Z.of_nat (List.length l)) <? 0) with false
    by (symmetry; apply Z.ltb_ge; lia).
  replace (Z.of_nat (List.length l) <=? Intn (Z.of_nat (List.length l))) with false
    by (symmetry; apply Z.leb_gt; lia).
  simpl orb. cbv iota.
  destruct (nth_error l (Z.to_nat (Intn (Z.of_nat (List.length l))))) as [r|] eqn:Hnth.
  - exists r. split; [reflexivity|]. now apply nth_error_In in Hnth.
  - apply nth_error_None in Hnth. lia.
Qed.

(** ** The command pipeline *)

Section Properties.

Context {E G RC TC RQ : Type}.
Context `{!Engine.t E} `{!ResponseCache.t RC E} `{!ReadTimestampCache.t TC}
        `{!ReadQueue.t RQ} `{!Gossip.t G} `{!Package E} `{!LogicalCounter}.

Abbreviation World := (@World E G RC TC RQ).
Abbreviation Range := (@Range E G RC TC RQ).
Abbreviation M := (@M E G RC TC RQ).

Ltac run :=
  unfold bind, ret, panic, lift, the_range, set_range, the_configPrefixes,
    emit; simpl.

Lemma with_gossip_same (r : Range) : with_gossip (gossip r) r = r.
Proof. now destruct r. Qed.

Lemma gossiped_gossiped (g g' : G) (evs evs' : list Event) (w : World) :
  gossiped g' evs' (gossiped g evs w) = gossiped g' (evs ++ evs') w.
Proof. unfold gossiped; simpl. now rewrite app_assoc. Qed.

Lemma gossiped_nil (g : G) (w : World) :
  gossip (rng w) = Some g -> gossiped g [] w = w.
Proof.
  intros Hg. destruct w as [r cps tr]; unfold gossiped; simpl in *.
  rewrite app_nil_r, <- Hg, with_gossip_same. reflexivity.
Qed.

(** *** The configuration rebroadcast *)

(** [loadConfigMap] reads the engine and nothing else, and leaves the world
    as it is. *)
Lemma loadConfigMap_run (kp : Key) (ci : Config) (w : World) :
  exists res,
    forall w2 : World, engine (rng w2) = engine (rng w) ->
                       loadConfigMap kp ci w2 = Done res w2.
Proof.
  unfold loadConfigMap, engine_scan. run.
  destruct (Engine.scan (engine (rng w)) kp (PrefixEndKey kp) 0)
    as [kvs [e|]] eqn:Hscan.
  - exists ([], Some e). intros w2 ->. now rewrite Hscan.
  - destruct (loadConfigMap_loop kp ci kvs []) as [configs|e] eqn:Hloop.
    + exists (NewPrefixConfigMap configs). intros w2 ->.
      now rewrite Hscan, Hloop.
    + exists ([], Some e). intros w2 ->. now rewrite Hscan, Hloop.
Qed.

(** One iteration of the rebroadcast loop on a range with a gossip handle:
    it ends, changes the gossip handle and the events only, and rebroadcasts
    the map of a dirty prefix the range contains. *)
Lemma maybeGossipConfigs_body_run (cp : configPrefix) (w : World) (g : G) :
  gossip (rng w) = Some g ->
  exists g' evs,
    maybeGossipConfigs_body cp w = Done tt (gossiped g' evs w)
    /\ (dirty cp = true ->
        RangeDescriptor_ContainsKey (Desc (Meta (rng w))) (keyPrefix cp) = true ->
        forall res, loadConfigMap (keyPrefix cp) (configI cp) w = Done res w ->
                    rebroadcast_of cp res evs).
Proof.
  intros Hg. unfold maybeGossipConfigs_body, Range_ContainsKey. run.
  destruct (dirty cp && _) eqn:Hcond.
  - destruct (loadConfigMap_run (keyPrefix cp) (configI cp) w) as [res Hres].
    rewrite (Hres w eq_refl). destruct res as [m [e|]].
    + exists g, [glog_Errorf (failed_loading_config_map (gossipKey cp) e)].
      split.
      * unfold gossiped. simpl. now rewrite <- Hg, with_gossip_same.
      * intros _ _ res' Hres'. injection Hres' as <-. simpl. now left.
    + unfold call_AddInfo. run. rewrite Hg.
      destruct (Gossip.AddInfo g (gossipKey cp) (Info_PrefixConfigMap m) 0)
        as [g' [e|]] eqn:Hadd; run.
      * exists g', [gossip_AddInfo (gossipKey cp) (Info_PrefixConfigMap m) 0;
                    glog_Errorf (failed_to_gossip_configMap (gossipKey cp) e)].
        split.
        -- unfold gossiped. simpl. now rewrite <- app_assoc.
        -- intros _ _ res' Hres'. injection Hres' as <-. simpl. now left.
      * exists g', [gossip_AddInfo (gossipKey cp) (Info_PrefixConfigMap m) 0].
        split; [reflexivity|].
        intros _ _ res' Hres'. injection Hres' as <-. simpl. now left.
  - exists g, []. split.
    + now rewrite gossiped_nil.
    + intros Hd Hc. rewrite Hd, Hc in Hcond. discriminate.
Qed.

Lemma rebroadcast_of_app (cp : configPrefix) res (evs1 evs2 evs3 : list Event) :
  rebroadcast_of cp res evs2 -> rebroadcast_of cp res (evs1 ++ evs2 ++ evs3).
Proof.
  destruct res as [m [e|]]; simpl; intros Hin;
    apply in_or_app; right; apply in_or_app; now left.
Qed.

Lemma loadConfigMap_gossiped (kp : Key) (ci : Config) (w : World) g evs res :
  loadConfigMap kp ci w = Done res w ->
  loadConfigMap kp ci (gossiped g evs w) = Done res (gossiped g evs w).
Proof.
  intros Hw. destruct (loadConfigMap_run kp ci w) as [res' Hres].
  rewrite (Hres w eq_refl) in Hw. injection Hw as ->.
  now apply Hres.
Qed.

Lemma maybeGossipConfigs_loop_run (cps : list configPrefix) (w : World) (g : G) :
  gossip (rng w) = Some g ->
  exists g' evs,
    maybeGossipConfigs_loop cps w = Done tt (gossiped g' evs w)
    /\ forall cp, In cp cps -> dirty cp = true ->
         RangeDescriptor_ContainsKey (Desc (Meta (rng w))) (keyPrefix cp) = true ->
         forall res, loadConfigMap (keyPrefix cp) (configI cp) w = Done res w ->
                     rebroadcast_of cp res evs.
Proof.
  revert w g. induction cps as [|cp cps IH]; intros w g Hg; simpl.
  - exists g, []. split; [now rewrite gossiped_nil | intros cp []].
  - destruct (maybeGossipConfigs_body_run cp w g Hg) as (g1 & evs1 & Hbody & Hcp).
    destruct (IH (gossiped g1 evs1 w) g1 eq_refl) as (g2 & evs2 & Hloop & Hcps).
    exists g2, (evs1 ++ evs2). split.
    + unfold bind. rewrite Hbody, Hloop. now rewrite gossiped_gossiped.
    + intros cp' [<-|Hin] Hd Hc res Hres.
      * apply (rebroadcast_of_app cp res [] evs1 evs2). now apply Hcp.
      * rewrite <- (app_nil_r evs2).
        apply (rebroadcast_of_app cp' res evs1 evs2 []).
        apply Hcps; auto. now apply loadConfigMap_gossiped.
Qed.

(** [maybeGossipConfigs] ends on every world; without a gossip handle it
    does nothing. *)
Lemma maybeGossipConfigs_run (w : World) :
  match gossip (rng w) with
  | None => maybeGossipConfigs w = Done tt w
  | Some g =>
      exists g' evs,
        maybeGossipConfigs w = Done tt (gossiped g' evs w)
        /\ forall cp, In cp (configPrefixes w) -> dirty cp = true ->
             RangeDescriptor_ContainsKey (Desc (Meta (rng w))) (keyPrefix cp) = true ->
             forall res, loadConfigMap (keyPrefix cp) (configI cp) w = Done res w ->
                         rebroadcast_of cp res evs
  end.
Proof.
  unfold maybeGossipConfigs, IsLeader. run.
  destruct (gossip (rng w)) as [g|] eqn:Hg; simpl; [|reflexivity].
  now apply (maybeGossipConfigs_loop_run _ w g).
Qed.

(** The loop of [internalPut] calls [maybeGossipConfigs] when the key is
    under a prefix of the table. *)
Lemma internalPut_loop_run (k : Key) (cps : list configPrefix) (w : World) :
  internalPut_loop k cps w
  = if existsb (fun cp => HasPrefix k (keyPrefix cp)) cps
    then maybeGossipConfigs w else Done tt w.
Proof.
  induction cps as [|cp cps IH]; simpl; [reflexivity|].
  destruct (HasPrefix k (keyPrefix cp)); simpl; [reflexivity | exact IH].
Qed.

(** [internalPut] ends on every world. When the engine has taken the value
    it returns nil, whatever the rebroadcast did. *)
Lemma internalPut_run (k : Key) (v : Value) (w : World) :
  exists err w', internalPut k v w = Done err w'
                 /\ configPrefixes w' = configPrefixes w
                 /\ (exists evs, trace w' = trace w ++ evs)
                 /\ (snd (Engine.put (engine (rng w)) k (Bytes v)) = None ->
                     err = None).
Proof.
  unfold internalPut, engine_put. run.
  destruct (Engine.put (engine (rng w)) k (Bytes v)) as [e' [e|]] eqn:Hput; run.
  - eexists _, _. split; [reflexivity|]. repeat split.
    + exists []. now rewrite app_nil_r.
    + discriminate.
  - rewrite internalPut_loop_run.
    destruct (existsb _ _).
    + match goal with |- context [maybeGossipConfigs ?w0] =>
        pose proof (maybeGossipConfigs_run w0) as Hrun; simpl in Hrun;
        destruct (gossip (rng w)) as [g|]
      end.
      * destruct Hrun as (g' & evs & -> & _).
        eexists _, _. split; [reflexivity|]. repeat split.
        exists evs. reflexivity.
      * rewrite Hrun. eexists _, _. split; [reflexivity|]. repeat split.
        exists []. simpl. now rewrite app_nil_r.
    + eexists _, _. split; [reflexivity|]. repeat split.
      exists []. simpl. now rewrite app_nil_r.
Qed.






(** *** What a computation leaves as it was *)

#[local] Instance trace_ext_PreOrder : PreOrder (trace_ext : World -> World -> Prop).
Proof.
  split.
  - intros w. exists []. now rewrite app_nil_r.
  - intros w1 w2 w3 [evs1 He1] [evs2 He2]. exists (evs1 ++ evs2).
    now rewrite He2, He1, app_assoc.
Qed.

#[local] Instance trace_ext_Frame : Frame (trace_ext : World -> World -> Prop).
Proof.
  split.
  - exact trace_ext_PreOrder.
  - intros r w. exists []. simpl. now rewrite app_nil_r.
  - intros ev w. now exists [ev].
Qed.

Section Preserves.

Context (R : World -> World -> Prop) `{!PreOrder R}.

Lemma preserves_ret {A} (a : A) : preserves R (ret a : M A).
Proof. intros w a' w' Heq. injection Heq as _ <-. reflexivity. Qed.

Lemma preserves_panic {A} (msg : string) : preserves R (panic msg : M A).
Proof. intros w a w' Heq. discriminate. Qed.

Lemma preserves_bind {A B} (m : M A) (k : A -> M B) :
  preserves R m -> (forall a, preserves R (k a)) -> preserves R (bind m k).
Proof.
  intros Hm Hk w b w' Heq. unfold bind in Heq.
  destruct (m w) as [a w1|] eqn:Hmw; [|discriminate].
  transitivity w1; [exact (Hm _ _ _ Hmw) | exact (Hk a _ _ _ Heq)].
Qed.

Lemma preserves_the_range : preserves R (the_range : M Range).
Proof. intros w a w' Heq. injection Heq as _ <-. reflexivity. Qed.

Lemma preserves_the_configPrefixes :
  preserves R (the_configPrefixes : M (list configPrefix)).
Proof. intros w a w' Heq. injection Heq as _ <-. reflexivity. Qed.

End Preserves.

Create HintDb preserves.

#[local] Hint Resolve preserves_the_range preserves_the_configPrefixes : preserves.

(** Goes through a computation made of [bind], [ret], matches and the
    computations of the hint database. *)
Ltac preserves_step :=
  match goal with
  | |- preserves _ (bind _ _) => apply preserves_bind; [typeclasses eauto| |intros]
  | |- preserves _ (ret _) => apply preserves_ret; typeclasses eauto
  | |- preserves _ (panic _) => apply preserves_panic
  | |- preserves _ (lift ?r) => destruct r; simpl
  | |- preserves _ (if ?b then _ else _) => destruct b
  | |- preserves _ (let (_, _) := ?p in _) => destruct p
  | |- preserves _ (match ?x with _ => _ end) => destruct x
  | |- preserves _ _ => solve [auto with preserves typeclass_instances]
  end.

Ltac preserves_tac := repeat preserves_step.

Lemma preserves_engine_get R `{!PreOrder R} (k : Key) :
  preserves R (engine_get k : M (byteslice * option error)).
Proof. unfold engine_get. preserves_tac. Qed.

Lemma preserves_engine_scan R `{!PreOrder R} (s e : Key) (max : Z) :
  preserves R (engine_scan s e max : M (list rawKeyValue * option error)).
Proof. unfold engine_scan. preserves_tac. Qed.

#[local] Hint Resolve preserves_engine_get preserves_engine_scan : preserves.

Ltac unfold_handlers :=
  unfold Range_Contains, Range_Get, Range_Put, Range_ConditionalPut,
    Range_Increment, Range_Delete, Range_DeleteRange, Range_Scan,
    Range_EndTransaction, Range_AccumulateTS, Range_ReapQueue,
    Range_EnqueueUpdate, Range_EnqueueMessage, Range_InternalRangeLookup.

(** What holds across every change of the range and every event holds
    across every command. *)
Section Frames.

Context (R : World -> World -> Prop) `{!Frame R}.

Lemma frame_emit_all (evs : list Event) (w : World) :
  R w {| rng := rng w; configPrefixes := configPrefixes w;
         trace := trace w ++ evs |}.
Proof.
  revert w. induction evs as [|ev evs IH]; intros w.
  - rewrite app_nil_r. apply frame_set_range.
  - transitivity {| rng := rng w; configPrefixes := configPrefixes w;
                    trace := trace w ++ [ev] |}; [apply frame_emit|].
    specialize (IH {| rng := rng w; configPrefixes := configPrefixes w;
                      trace := trace w ++ [ev] |}).
    simpl in IH. rewrite <- app_assoc in IH. exact IH.
Qed.

Lemma frame_events (r : Range) (evs : list Event) (w : World) :
  R w {| rng := r; configPrefixes := configPrefixes w; trace := trace w ++ evs |}.
Proof.
  transitivity {| rng := r; configPrefixes := configPrefixes w; trace := trace w |};
    [apply frame_set_range|].
  exact (frame_emit_all evs
           {| rng := r; configPrefixes := configPrefixes w; trace := trace w |}).
Qed.

Lemma frame_set_range_preserves (r : Range) : preserves R (set_range r : M unit).
Proof. intros w a w' Heq. injection Heq as _ <-. apply frame_set_range. Qed.

Lemma frame_emit_preserves (ev : Event) : preserves R (emit ev : M unit).
Proof. intros w a w' Heq. injection Heq as _ <-. apply frame_emit. Qed.

Hint Resolve frame_set_range_preserves frame_emit_preserves : preserves.

Lemma frame_engine_put (k : Key) (v : byteslice) :
  preserves R (engine_put k v : M (option error)).
Proof. unfold engine_put. preserves_tac. Qed.

Lemma frame_engine_clear (k : Key) :
  preserves R (engine_clear k : M (option error)).
Proof. unfold engine_clear. preserves_tac. Qed.

Lemma frame_call_increment (k : Key) (inc : Z) :
  preserves R (call_increment k inc : M (Z * option error)).
Proof. unfold call_increment. preserves_tac. Qed.

Lemma frame_call_PutResponse (c : ClientCmdID) (reply : Reply) :
  preserves R (call_PutResponse c reply : M (option error)).
Proof. unfold call_PutResponse. preserves_tac. Qed.

Lemma frame_call_GetResponse (c : ClientCmdID) (reply : Reply) :
  preserves R (call_GetResponse c reply : M (Reply * (bool * option error))).
Proof. unfold call_GetResponse. preserves_tac. Qed.

Lemma frame_maybeGossipConfigs : preserves R (maybeGossipConfigs : M unit).
Proof.
  intros w a w' Heq. pose proof (maybeGossipConfigs_run w) as Hrun.
  destruct (gossip (rng w)) as [g|].
  - destruct Hrun as (g' & evs & Hrun & _). rewrite Hrun in Heq.
    injection Heq as _ <-. apply frame_events.
  - rewrite Hrun in Heq. injection Heq as _ <-. reflexivity.
Qed.

Hint Resolve frame_engine_put frame_engine_clear frame_call_increment
  frame_call_PutResponse frame_call_GetResponse frame_maybeGossipConfigs
  : preserves.

Lemma frame_internalPut (k : Key) (v : Value) :
  preserves R (internalPut k v : M (option error)).
Proof.
  unfold internalPut. preserves_tac.
  intros w u w' Heq. rewrite internalPut_loop_run in Heq.
  destruct (existsb _ _).
  - exact (frame_maybeGossipConfigs _ _ _ Heq).
  - injection Heq as _ <-. reflexivity.
Qed.

Hint Resolve frame_internalPut : preserves.

Lemma frame_executeCmd_switch (method : string) (args : Args) (reply : Reply) :
  preserves R (executeCmd_switch method args reply : M (Reply + error)).
Proof.
  unfold executeCmd_switch.
  repeat match goal with
         | |- preserves _ (if String.eqb ?m ?c then _ else _) =>
             destruct (String.eqb m c)
         end;
    try (destruct args, reply; try apply preserves_panic;
         apply preserves_bind;
         [typeclasses eauto| |intros; apply preserves_ret; typeclasses eauto]).
  all: try (apply preserves_ret; typeclasses eauto).
  all: unfold_handlers; preserves_tac.
Qed.

Lemma frame_executeCmd (method : string) (args : Args) (reply : Reply) :
  preserves R (executeCmd method args reply : M (Reply * option error)).
Proof.
  unfold executeCmd.
  apply preserves_bind;
    [typeclasses eauto | apply frame_executeCmd_switch|].
  intros [r|e]; preserves_tac.
Qed.

Hint Resolve frame_executeCmd : preserves.

Lemma frame_ReadOnlyCmd (method : string) (header : RequestHeader) (args : Args)
  (reply : Reply) :
  preserves R (ReadOnlyCmd method header args reply : M (Reply * option error)).
Proof. unfold ReadOnlyCmd, IsLeader. preserves_tac. Qed.

Lemma frame_ReadWriteCmd_submit (method : string) (header : RequestHeader)
  (args : Args) (reply : Reply) :
  preserves R (ReadWriteCmd_submit method header args reply
               : M (RequestHeader * Reply * option error)).
Proof. unfold ReadWriteCmd_submit, EnqueueCmd. preserves_tac. Qed.

Hint Resolve frame_ReadWriteCmd_submit : preserves.

Lemma frame_ReadWriteCmd (method : string) (header : RequestHeader) (args : Args)
  (reply : Reply) :
  preserves R (ReadWriteCmd method header args reply
               : M (RequestHeader * Reply * option error)).
Proof. unfold ReadWriteCmd. preserves_tac. Qed.

End Frames.

(** *** executeCmd and the response cache *)

(** What [executeCmd] does once the handler has returned. *)
Lemma executeCmd_after_handler (method : string) (args : Args) (reply : Reply)
  (w : World) (reply1 : Reply) (w1 : World) :
  executeCmd_switch method args reply w = Done (inl reply1) w1 ->
  executeCmd method args reply w
  = if IsReadOnly method then Done (reply1, reply_Error reply1) w1
    else
      let '(rc', e', putErr) :=
        ResponseCache.PutResponse (respCache (rng w1)) (engine (rng w1))
          (hCmdID (args_header args)) reply1 in
      Done (reply1, reply_Error reply1)
        (cached rc' e' (PutResponse_events args reply1 putErr) w1).
Proof.
  intros Hsw. unfold executeCmd, bind at 1. rewrite Hsw.
  destruct (IsReadOnly method); simpl; [reflexivity|].
  unfold call_PutResponse. run.
  destruct (ResponseCache.PutResponse _ _ _ _) as [[rc' e'] [e|]]; run;
    unfold cached, PutResponse_events; simpl.
  - now rewrite <- app_assoc.
  - reflexivity.
Qed.

(** The handler of a write returns, whatever its arguments and the state of
    the collaborators. *)
Lemma write_handler_returns (method : string) (args : Args) (reply : Reply)
  (w : World) :
  well_typed method args reply = true ->
  IsReadOnly method = false ->
  exists reply1 w1, executeCmd_switch method args reply w = Done (inl reply1) w1.
Proof.
  intros Hwt Hro.
  destruct args, reply; simpl in Hwt; try discriminate;
    apply String.eqb_eq in Hwt; subst method; try discriminate Hro;
    unfold executeCmd_switch; simpl; unfold_handlers.
  - (* Put *)
    destruct (internalPut_run (hKey h) v w) as (err & w1 & Hrun & _).
    unfold bind. rewrite Hrun. simpl. now eexists _, _.
  - (* ConditionalPut *)
    unfold engine_get. run.
    destruct (Engine.get (engine (rng w)) (hKey h)) as [val [e|]];
      [now eexists _, _|].
    destruct (internalPut_run (hKey h) v w) as (err & w1 & Hrun & _).
    destruct (Bytes ExpValue) as [exp|], val as [cur|]; run;
      try rewrite Hrun; try (now eexists _, _).
    destruct (negb (bytes_Equal exp cur)); run; try rewrite Hrun;
      now eexists _, _.
  - (* Increment *)
    unfold call_increment. run.
    destruct (increment (engine (rng w)) (hKey h) Increment0) as [e' [n err]].
    run. now eexists _, _.
  - (* Delete *)
    unfold engine_clear. run.
    destruct (Engine.clear (engine (rng w)) (hKey h)) as [e' [e|]]; run;
      now eexists _, _.
  - now eexists _, _.
  - now eexists _, _.
  - now eexists _, _.
  - now eexists _, _.
  - now eexists _, _.
  - now eexists _, _.
Qed.

Lemma eq_Range_Contains a r : preserves eq (Range_Contains a r : M ContainsResponse_t).
Proof. unfold_handlers. preserves_tac. Qed.

Lemma eq_Range_Get a r : preserves eq (Range_Get a r : M GetResponse_t).
Proof. unfold_handlers. preserves_tac. Qed.

Lemma eq_Range_Scan a m r : preserves eq (Range_Scan a m r : M ScanResponse_t).
Proof. unfold_handlers. preserves_tac. Qed.

Lemma eq_Range_InternalRangeLookup a r :
  preserves eq (Range_InternalRangeLookup a r : M InternalRangeLookupResponse_t).
Proof. unfold_handlers. preserves_tac. Qed.

(** A read-only method leaves the world as it was: the range, the table and
    the events. *)
Lemma read_only_keeps_world (method : string) (args : Args) (reply : Reply) :
  IsReadOnly method = true ->
  preserves eq (executeCmd method args reply : M (Reply * option error)).
Proof.
  intros Hro. unfold executeCmd. rewrite Hro. simpl.
  apply preserves_bind; [typeclasses eauto| |intros [r|e]; preserves_tac].
  unfold executeCmd_switch.
  repeat match goal with
         | |- preserves _ (if String.eqb ?m ?c then _ else _) =>
             let Heq := fresh "Heq" in
             destruct (String.eqb m c) eqn:Heq;
             [apply String.eqb_eq in Heq; subst m; try discriminate Hro|]
         end;
    try (destruct args, reply; try apply preserves_panic;
         apply preserves_bind;
         [typeclasses eauto| |intros; apply preserves_ret; typeclasses eauto]).
  - apply eq_Range_Contains.
  - apply eq_Range_Get.
  - apply eq_Range_Scan.
  - apply eq_Range_InternalRangeLookup.
  - apply preserves_ret; typeclasses eauto.
Qed.

(** C3. For a method that is not read-only, with arguments and reply of the
    method's types, the handler returns and [executeCmd] then hands the
    reply the handler left, whatever error it carries, to the response
    cache under the [CmdID] of the arguments; a failure of that call adds a
    log line and nothing else, the result of [executeCmd] being the reply
    and its embedded error either way. For a read-only method [executeCmd],
    when it returns, has left the response cache and the events untouched. *)
Theorem executeCmd_persists_replies_of_writes (method : string) (args : Args)
  (reply : Reply) (w : World) :
  well_typed method args reply = true ->
  if IsReadOnly method then
    forall res w', executeCmd method args reply w = Done res w' ->
                   respCache (rng w') = respCache (rng w) /\ trace w' = trace w
  else
    exists reply1 w1,
      executeCmd_switch method args reply w = Done (inl reply1) w1
      /\ let '(rc', e', putErr) :=
           ResponseCache.PutResponse (respCache (rng w1)) (engine (rng w1))
             (hCmdID (args_header args)) reply1 in
         executeCmd method args reply w
         = Done (reply1, reply_Error reply1)
             (cached rc' e'
                (respCache_PutResponse (hCmdID (args_header args)) reply1
                 :: match putErr with
                    | Some e =>
                        [glog_Errorf (unable_to_write_result args reply1 e)]
                    | None => []
                    end) w1).
Proof.
  intros Hwt. destruct (IsReadOnly method) eqn:Hro.
  - intros res w' Hrun.
    now rewrite <- (read_only_keeps_world method args reply Hro _ _ _ Hrun).
  - destruct (write_handler_returns method args reply w Hwt Hro)
      as (reply1 & w1 & Hsw).
    exists reply1, w1. split; [exact Hsw|].
    rewrite (executeCmd_after_handler _ _ _ _ _ _ Hsw), Hro.
    now destruct (ResponseCache.PutResponse _ _ _ _) as [[rc' e'] putErr].
Qed.

(** C8. Each of the six placeholder handlers returns with the error
    "unimplemented" set in its reply and the world, with its engine, as it
    was; its method is not read-only, and [executeCmd] on it hands that
    reply to the response cache and returns the error. *)
Theorem placeholders_are_unimplemented (w : World) (h : RequestHeader)
  (r : ResponseHeader) :
  Forall
    (fun '(method, handler, mk_args, mk_reply) =>
       let r1 := set_Error r (Some Error_unimplemented) in
       handler h r w = Done r1 w
       /\ executeCmd_switch method (mk_args h) (mk_reply r) w
          = Done (inl (mk_reply r1)) w
       /\ IsReadOnly method = false
       /\ let '(rc', e', putErr) :=
            ResponseCache.PutResponse (respCache (rng w)) (engine (rng w))
              (hCmdID h) (mk_reply r1) in
          executeCmd method (mk_args h) (mk_reply r) w
          = Done (mk_reply r1, Some Error_unimplemented)
              (cached rc' e'
                 (PutResponse_events (mk_args h) (mk_reply r1) putErr) w))
    placeholders.
Proof.
  unfold placeholders.
  repeat (apply Forall_cons;
          [ repeat apply conj; try reflexivity;
            match goal with
            | |- context [executeCmd ?m ?a ?rp w] =>
                rewrite (executeCmd_after_handler m a rp w _ w eq_refl)
            end; simpl;
            now destruct (ResponseCache.PutResponse _ _ _ _) as [[rc' e'] putErr]
          |]).
  apply Forall_nil.
Qed.

(** *** The timestamp of the reply *)

Lemma yields_ret {A} (P : A -> Prop) (a : A) : P a -> yields P (ret a : M A).
Proof. intros HP w a' w' Heq. injection Heq as <- _. exact HP. Qed.

Lemma yields_panic {A} (P : A -> Prop) (msg : string) : yields P (panic msg : M A).
Proof. intros w a w' Heq. discriminate. Qed.

Lemma yields_bind {A B} (Q : A -> Prop) (P : B -> Prop) (m : M A) (k : A -> M B) :
  yields Q m -> (forall a, Q a -> yields P (k a)) -> yields P (bind m k).
Proof.
  intros Hm Hk w b w' Heq. unfold bind in Heq.
  destruct (m w) as [a w1|] eqn:Hmw; [|discriminate].
  exact (Hk a (Hm _ _ _ Hmw) _ _ _ Heq).
Qed.

Lemma yields_then {A B} (P : B -> Prop) (m : M A) (k : A -> M B) :
  (forall a, yields P (k a)) -> yields P (bind m k).
Proof.
  intros Hk. apply (yields_bind (fun _ => True)); [|auto].
  intros w a w' _. exact I.
Qed.

(** Goes through a computation whose result does not depend on what the
    computations before the last [ret] returned. *)
Ltac yields_step :=
  match goal with
  | |- yields _ (bind _ _) => apply yields_then; intros
  | |- yields _ (ret _) => apply yields_ret
  | |- yields _ (panic _) => apply yields_panic
  | |- yields _ (lift ?r) => destruct r; simpl
  | |- yields _ (if ?b then _ else _) => destruct b
  | |- yields _ (let (_, _) := ?p in _) => destruct p
  | |- yields _ (match ?x with _ => _ end) => destruct x
  end.

Ltac yields_tac := cbv zeta; repeat yields_step.

(** A handler run by the [switch] of [executeCmd]: what holds of the reply
    the handler returns holds of the reply of the [switch]. *)
Lemma yields_handler {A} (P : Reply -> Prop) (m : M A) (c : A -> Reply) :
  yields (fun a => P (c a)) m ->
  yields (fun res : Reply + error => match res with inl r1 => P r1 | inr _ => True end)
    (bind m (fun a => ret (inl (c a)))).
Proof.
  intros Hm. apply (yields_bind (fun a => P (c a))); [exact Hm|].
  intros a Ha. now apply yields_ret.
Qed.

(** No handler writes the [Timestamp] of the reply: the reply of the
    [switch] has the timestamp the reply came with. *)
Lemma executeCmd_switch_keeps_Timestamp (method : string) (args : Args)
  (reply : Reply) :
  yields (fun res : Reply + error =>
            match res with
            | inl r1 => rTimestamp (reply_header r1) = rTimestamp (reply_header reply)
            | inr _ => True
            end)
    (executeCmd_switch method args reply : M (Reply + error)).
Proof.
  unfold executeCmd_switch.
  repeat match goal with
         | |- yields _ (if String.eqb ?m ?c then _ else _) =>
             destruct (String.eqb m c)
         end;
    try (destruct args, reply; try apply yields_panic;
         apply (yields_handler
                  (fun r1 => rTimestamp (reply_header r1) = _))).
  all: try (apply yields_ret; exact I).
  all: unfold_handlers; yields_tac; reflexivity.
Qed.

(** [executeCmd] returns the reply with the timestamp it came with. *)
Lemma executeCmd_keeps_Timestamp (method : string) (args : Args) (reply : Reply)
  (w : World) r' e w' :
  executeCmd method args reply w = Done (r', e) w' ->
  rTimestamp (reply_header r') = rTimestamp (reply_header reply).
Proof.
  intros Hrun.
  destruct (executeCmd_switch method args reply w) as [[r1|e1] w1|] eqn:Hsw.
  - pose proof (executeCmd_switch_keeps_Timestamp _ _ _ _ _ _ Hsw) as Hts.
    rewrite (executeCmd_after_handler _ _ _ _ _ _ Hsw) in Hrun.
    destruct (IsReadOnly method);
      [|destruct (ResponseCache.PutResponse _ _ _ _) as [[rc2 e2] putErr]];
      now injection Hrun as <- _ _.
  - unfold executeCmd, bind in Hrun. rewrite Hsw in Hrun.
    now injection Hrun as <- _ _.
  - unfold executeCmd, bind in Hrun. rewrite Hsw in Hrun. discriminate.
Qed.

(** *** ReadWriteCmd *)

(** The second part of [ReadWriteCmd] sends the command to raft: the method,
    the arguments and the reply as the timestamp check left it. *)
Lemma ReadWriteCmd_submit_sends (method : string) (header : RequestHeader)
  (args : Args) (reply : Reply) (w : World) h' r' e w' :
  ReadWriteCmd_submit method header args reply w = Done (h', r', e) w' ->
  let fwd := forward_timestamp
               (ReadTimestampCache.GetMax (tsCache (rng w)) (hKey header)
                  (hEndKey header)) header reply in
  h' = fst fwd
  /\ exists evs,
       trace w' = trace w
                  ++ raft_send {| Method := method; Cmd_Args := args;
                                  Cmd_Reply := snd fwd;
                                  ReadOnly := IsReadOnly method |} :: evs.
Proof.
  unfold ReadWriteCmd_submit, EnqueueCmd. run.
  destruct (forward_timestamp _ header reply) as [h1 r1].
  destruct (ReadQueue.AddWrite _ _ _) as [q wKey]. run.
  match goal with
  | |- context [executeCmd ?m ?a ?rp ?w0] =>
      destruct (executeCmd m a rp w0) as [[r2 e2] w2|] eqn:Hexec
  end; [|discriminate].
  intros Heq. injection Heq as <- <- <- <-. simpl. split; [reflexivity|].
  destruct (frame_executeCmd trace_ext _ _ _ _ _ _ Hexec) as [evs Hevs].
  simpl in Hevs. exists evs. now rewrite Hevs, <- app_assoc.
Qed.

(** [ReadWriteCmd] after the look-up in the response cache: the stored
    reply on a hit, the second part of the function otherwise. *)
Lemma ReadWriteCmd_after_lookup (method : string) (header : RequestHeader)
  (args : Args) (reply : Reply) (w : World)
  (rc' : RC) (reply' : Reply) (ok : bool) (err : option error) :
  ResponseCache.GetResponse (respCache (rng w)) (engine (rng w)) (hCmdID header)
    reply = (rc', reply', (ok, err)) ->
  ReadWriteCmd method header args reply w
  = if ok then Done (header, reply', reply_Error reply') (looked_up rc' [] w)
    else ReadWriteCmd_submit method header args reply'
           (looked_up rc'
              match err with
              | Some e => [glog_Errorf (unable_to_read_result args e)]
              | None => []
              end w).
Proof.
  intros Hget. unfold ReadWriteCmd, call_GetResponse. run. rewrite Hget. run.
  destruct ok.
  - unfold looked_up. simpl. now rewrite app_nil_r.
  - destruct err as [e|]; run; unfold looked_up; simpl;
      [reflexivity | now rewrite app_nil_r].
Qed.

(** The timestamp check leaves the key range of the header as it is. *)
Lemma forward_timestamp_keys (ts : Timestamp) (header : RequestHeader)
  (reply : Reply) :
  hKey (fst (forward_timestamp ts header reply)) = hKey header
  /\ hEndKey (fst (forward_timestamp ts header reply)) = hEndKey header.
Proof.
  unfold forward_timestamp. now destruct (Timestamp_Less (hTimestamp header) ts).
Qed.

(** The second part of [ReadWriteCmd] is the execution of the command by
    [executeCmd], on the reply as the timestamp check left it, between the
    addition and the removal of the pending write: it returns what
    [executeCmd] returns, and panics only when [executeCmd] does. *)
Lemma ReadWriteCmd_submit_runs (method : string) (header : RequestHeader)
  (args : Args) (reply : Reply) (rc : RC) (logged : list Event) (w : World) :
  let fwd := forward_timestamp
               (ReadTimestampCache.GetMax (tsCache (rng w)) (hKey header)
                  (hEndKey header)) header reply in
  let (q, wKey) :=
    ReadQueue.AddWrite (readQ (rng w)) (hKey header) (hEndKey header) in
  let cmd := {| Method := method; Cmd_Args := args; Cmd_Reply := snd fwd;
                ReadOnly := IsReadOnly method |} in
  ReadWriteCmd_submit method header args reply (looked_up rc logged w)
  = match executeCmd method args (snd fwd) (submitted rc q logged cmd w) with
    | Done (r', e) w2 => Done (fst fwd, r', e) (completed wKey w2)
    | Panicked msg => Panicked msg
    end.
Proof.
  unfold ReadWriteCmd_submit, EnqueueCmd. run.
  match goal with
  | |- context [forward_timestamp ?ts header reply] =>
      destruct (forward_timestamp_keys ts header reply) as [Hk Hek];
      destruct (forward_timestamp ts header reply) as [h1 r1]
  end.
  simpl in Hk, Hek. rewrite Hk, Hek.
  destruct (ReadQueue.AddWrite (readQ (rng w)) (hKey header) (hEndKey header))
    as [q wKey]. run.
  unfold submitted. simpl.
  match goal with
  | |- context [executeCmd ?m ?a ?rp ?w0] =>
      destruct (executeCmd m a rp w0) as [[r2 e2] w2|]
  end; reflexivity.
Qed.

(** C2. When the response cache holds a reply for [header.CmdID],
    [ReadWriteCmd] returns that reply and its embedded error, adding no
    event (nothing is sent to raft) and leaving the engine as it was. When
    the lookup does not find a reply, with or without an error,
    [ReadWriteCmd] goes on with its second part on the same arguments; an
    error of the lookup is logged before. The second part, when it returns,
    has sent the command to raft. And when the lookup does not find a
    reply, an error of the lookup included, the command is executed: a call
    that returns returns the reply and the error with which [executeCmd]
    returned on the method, the arguments and the reply of the timestamp
    check, in the world where the look-up is done, the pending write added
    and the command sent to raft, and leaves the world [executeCmd] left,
    less the pending write; a call that panics does so because
    [executeCmd] did. The error of the lookup is not returned. *)
Theorem ReadWriteCmd_consults_response_cache (method : string)
  (header : RequestHeader) (args : Args) (reply : Reply) (w : World)
  (rc' : RC) (reply' : Reply) (ok : bool) (err : option error) :
  ResponseCache.GetResponse (respCache (rng w)) (engine (rng w)) (hCmdID header)
    reply = (rc', reply', (ok, err)) ->
  (ok = true ->
   ReadWriteCmd method header args reply w
   = Done (header, reply', reply_Error reply') (looked_up rc' [] w))
  /\ (ok = false ->
      ReadWriteCmd method header args reply w
      = ReadWriteCmd_submit method header args reply'
          (looked_up rc'
             match err with
             | Some e => [glog_Errorf (unable_to_read_result args e)]
             | None => []
             end w))
  /\ (forall w0 res w1,
        ReadWriteCmd_submit method header args reply' w0 = Done res w1 ->
        exists cmd evs,
          Method cmd = method /\ Cmd_Args cmd = args
          /\ trace w1 = trace w0 ++ raft_send cmd :: evs)
  /\ (ok = false ->
      let logged := match err with
                    | Some e => [glog_Errorf (unable_to_read_result args e)]
                    | None => []
                    end in
      let fwd := forward_timestamp
                   (ReadTimestampCache.GetMax (tsCache (rng w)) (hKey header)
                      (hEndKey header)) header reply' in
      let (q, wKey) :=
        ReadQueue.AddWrite (readQ (rng w)) (hKey header) (hEndKey header) in
      let cmd := {| Method := method; Cmd_Args := args; Cmd_Reply := snd fwd;
                    ReadOnly := IsReadOnly method |} in
      match ReadWriteCmd method header args reply w with
      | Done (h', r', e) w' =>
          exists w2,
            executeCmd method args (snd fwd) (submitted rc' q logged cmd w)
            = Done (r', e) w2
            /\ h' = fst fwd
            /\ w' = completed wKey w2
      | Panicked msg =>
          executeCmd method args (snd fwd) (submitted rc' q logged cmd w)
          = Panicked msg
      end).
Proof.
  intros Hget. repeat apply conj.
  - intros ->. now rewrite (ReadWriteCmd_after_lookup _ _ _ _ _ _ _ _ _ Hget).
  - intros ->. now rewrite (ReadWriteCmd_after_lookup _ _ _ _ _ _ _ _ _ Hget).
  - intros w0 [[h1 r1] e1] w1 Hrun.
    destruct (ReadWriteCmd_submit_sends _ _ _ _ _ _ _ _ _ Hrun) as [_ [evs Hevs]].
    eexists _, evs. repeat apply conj; [| |exact Hevs]; reflexivity.
  - intros ->. rewrite (ReadWriteCmd_after_lookup _ _ _ _ _ _ _ _ _ Hget).
    cbv zeta.
    pose proof (ReadWriteCmd_submit_runs method header args reply' rc'
                  match err with
                  | Some e => [glog_Errorf (unable_to_read_result args e)]
                  | None => []
                  end w) as Hruns.
    cbv zeta in Hruns.
    destruct (ReadQueue.AddWrite (readQ (rng w)) (hKey header) (hEndKey header))
      as [q wKey].
    rewrite Hruns.
    destruct (executeCmd _ _ _ _) as [[r2 e2] w2|msg]; [|reflexivity].
    exists w2. now repeat split.
Qed.

(** *** The timestamp check *)

Lemma Timestamp_Less_incr (ts : Timestamp) :
  Logical ts <> Logical_max -> Timestamp_Less ts (Logical_incr ts) = true.
Proof.
  intros Hmax. unfold Timestamp_Less, Logical_incr. simpl.
  destruct (Z.eqb_spec (Logical ts) Logical_max) as [Heq|_]; [contradiction|].
  rewrite Z.eqb_refl. simpl.
  replace (Logical ts <? Logical ts + 1) with true by (symmetry; apply Z.ltb_lt; lia).
  now rewrite orb_true_r.
Qed.

Lemma Timestamp_Less_spec (t s : Timestamp) :
  Timestamp_Less t s = true
  <-> WallTime t < WallTime s \/ (WallTime t = WallTime s /\ Logical t < Logical s).
Proof.
  unfold Timestamp_Less.
  rewrite orb_true_iff, andb_true_iff, Z.ltb_lt, Z.eqb_eq, Z.ltb_lt. tauto.
Qed.

Lemma Timestamp_not_Less_trans (a b c : Timestamp) :
  Timestamp_Less a b = false -> Timestamp_Less b c = false ->
  Timestamp_Less a c = false.
Proof.
  intros Hab Hbc.
  destruct (Timestamp_Less a c) eqn:Hac; [|reflexivity].
  apply Timestamp_Less_spec in Hac.
  assert (~ (WallTime a < WallTime b
             \/ (WallTime a = WallTime b /\ Logical a < Logical b))) as Hab'
    by (rewrite <- Timestamp_Less_spec; congruence).
  assert (~ (WallTime b < WallTime c
             \/ (WallTime b = WallTime c /\ Logical b < Logical c))) as Hbc'
    by (rewrite <- Timestamp_Less_spec; congruence).
  lia.
Qed.

Lemma Timestamp_Less_asym (a b : Timestamp) :
  Timestamp_Less a b = true -> Timestamp_Less b a = false.
Proof.
  intros Hab. apply Timestamp_Less_spec in Hab.
  destruct (Timestamp_Less b a) eqn:Hba; [|reflexivity].
  apply Timestamp_Less_spec in Hba. lia.
Qed.

Lemma set_reply_Timestamp_get (reply : Reply) (ts : Timestamp) :
  rTimestamp (reply_header (set_reply_Timestamp reply ts)) = ts.
Proof. now destruct reply. Qed.

(** C1 (as amended). Let [ReadWriteCmd] not be answered from the response
    cache, and [ts] be the timestamp [GetMax] gives for the key range of the
    write. The command sent to raft carries the reply of the timestamp
    check, and the reply returned has the timestamp of that reply. When the
    timestamp of the header is below [ts], the header and the reply get
    [ts] with its logical counter incremented ([ts.Logical++]); when the
    counter of [ts] is not at its maximum, that timestamp is above [ts],
    hence not below any timestamp [tr] that [ts] is not below. When the
    timestamp of the header is not below [ts], equal to it included, header
    and reply are left as they are, whatever the counter: the timestamp of
    the header is then not below [ts], and not always above it. *)
Theorem ReadWriteCmd_forwards_write_timestamp (method : string)
  (header : RequestHeader) (args : Args) (reply : Reply) (w : World)
  (rc' : RC) (reply' : Reply) (err : option error) h' r' e w' :
  let ts := ReadTimestampCache.GetMax (tsCache (rng w)) (hKey header)
              (hEndKey header) in
  ResponseCache.GetResponse (respCache (rng w)) (engine (rng w)) (hCmdID header)
    reply = (rc', reply', (false, err)) ->
  ReadWriteCmd method header args reply w = Done (h', r', e) w' ->
  exists sent evs evs',
    trace w' = trace w ++ evs
               ++ raft_send {| Method := method; Cmd_Args := args;
                               Cmd_Reply := sent;
                               ReadOnly := IsReadOnly method |} :: evs'
    /\ rTimestamp (reply_header r') = rTimestamp (reply_header sent)
    /\ (if Timestamp_Less (hTimestamp header) ts then
          hTimestamp h' = Logical_incr ts
          /\ rTimestamp (reply_header sent) = Logical_incr ts
          /\ rTimestamp (reply_header r') = Logical_incr ts
          /\ (Logical ts <> Logical_max ->
              Timestamp_Less ts (hTimestamp h') = true
              /\ Timestamp_Less (hTimestamp h') ts = false
              /\ forall tr, Timestamp_Less ts tr = false ->
                            Timestamp_Less (hTimestamp h') tr = false)
        else h' = header /\ sent = reply'
             /\ rTimestamp (reply_header r') = rTimestamp (reply_header reply')
             /\ Timestamp_Less (hTimestamp h') ts = false
             /\ forall tr, Timestamp_Less ts tr = false ->
                           Timestamp_Less (hTimestamp h') tr = false).
Proof.
  intros ts Hget Hrun.
  rewrite (ReadWriteCmd_after_lookup _ _ _ _ _ _ _ _ _ Hget) in Hrun.
  destruct (ReadWriteCmd_submit_sends _ _ _ _ _ _ _ _ _ Hrun) as [-> [evs' Hevs]].
  pose proof (ReadWriteCmd_submit_runs method header args reply' rc'
                match err with
                | Some e => [glog_Errorf (unable_to_read_result args e)]
                | None => []
                end w) as Hruns.
  cbv zeta in Hruns.
  destruct (ReadQueue.AddWrite (readQ (rng w)) (hKey header) (hEndKey header))
    as [q wKey].
  rewrite Hruns in Hrun.
  destruct (executeCmd _ _ _ _) as [[r2 e2] w2|msg] eqn:Hexec; [|discriminate].
  injection Hrun as <- _ _.
  apply executeCmd_keeps_Timestamp in Hexec.
  simpl in Hevs |- *. fold ts in Hevs, Hexec |- *. rewrite <- app_assoc in Hevs.
  eexists _, _, evs'. split; [exact Hevs|]. split; [exact Hexec|].
  revert Hexec. unfold forward_timestamp.
  destruct (Timestamp_Less (hTimestamp header) ts) eqn:Hless; simpl; intros Hexec.
  - rewrite set_reply_Timestamp_get in Hexec |- *.
    repeat apply conj; auto.
    intros Hmax. pose proof (Timestamp_Less_incr ts Hmax) as Hincr.
    assert (Timestamp_Less (Logical_incr ts) ts = false) as Hnot
      by now apply Timestamp_Less_asym.
    repeat apply conj; auto.
    intros tr Htr. now apply (Timestamp_not_Less_trans _ ts).
  - repeat apply conj; auto.
    intros tr Htr. now apply (Timestamp_not_Less_trans _ ts).
Qed.

(** *** ConditionalPut *)

(** [internalPut] hands the key and the bytes of the value to the engine's
    [put]: it returns, with the error of that call, and the engine is the
    one that call left, whatever the rebroadcast did. *)
Lemma internalPut_engine (k : Key) (v : Value) (w : World) :
  let written := Engine.put (engine (rng w)) k (Bytes v) in
  exists w', internalPut k v w = Done (snd written) w'
             /\ engine (rng w') = fst written.
Proof.
  unfold internalPut, engine_put. run.
  destruct (Engine.put (engine (rng w)) k (Bytes v)) as [e' [e|]]; run.
  - eexists. split; reflexivity.
  - rewrite internalPut_loop_run. destruct (existsb _ _).
    + match goal with |- context [maybeGossipConfigs ?w0] =>
        pose proof (maybeGossipConfigs_run w0) as Hrun; simpl in Hrun
      end.
      destruct (gossip (rng w)) as [g|].
      * destruct Hrun as (g' & evs & -> & _). eexists. split; reflexivity.
      * rewrite Hrun. eexists. split; reflexivity.
    + eexists. split; reflexivity.
Qed.

(** C4. When the engine gives the current value of the key: with a nil
    expected value and an existing key, [ConditionalPut] sets the error "key
    already exists"; with a non-nil expected value and an absent key, the
    error "key does not exist"; with a non-nil expected value that is not
    equal to the current one, the error "key does not match existing" and
    the current value as [ActualValue]; in these three cases the world is
    left as it was. When the expected value equals the current one, or is
    nil for an absent key, it writes the new value: the key and the bytes of
    the new value are handed to the engine's [put], the engine is the one
    that call left, the error of the reply is the error of that call, nil
    when it succeeded, and [ActualValue] is as it came. In that it does what
    [Put] does on the same key and value: the same world and the same error
    in the reply. *)
Theorem ConditionalPut_semantics (w : World) (h : RequestHeader)
  (v ExpValue : Value) (reply : ConditionalPutResponse_t) (val : byteslice) :
  Engine.get (engine (rng w)) (hKey h) = (val, None) ->
  let written := Engine.put (engine (rng w)) (hKey h) (Bytes v) in
  let fails e actual :=
    Range_ConditionalPut h v ExpValue reply w
    = Done {| CPut_hdr := set_Error (CPut_hdr reply) (Some e);
              ActualValue := actual |} w in
  let as_Put :=
    Range_ConditionalPut h v ExpValue reply w
    = match Range_Put h v (CPut_hdr reply) w with
      | Done hdr w' => Done {| CPut_hdr := hdr; ActualValue := ActualValue reply |} w'
      | Panicked msg => Panicked msg
      end in
  let writes :=
    exists w',
      Range_ConditionalPut h v ExpValue reply w
      = Done {| CPut_hdr := set_Error (CPut_hdr reply) (snd written);
                ActualValue := ActualValue reply |} w'
      /\ engine (rng w') = fst written
      /\ Range_Put h v (CPut_hdr reply) w
         = Done (set_Error (CPut_hdr reply) (snd written)) w' in
  match Bytes ExpValue, val with
  | None, Some _ => fails (Errorf_key_already_exists (hKey h)) (ActualValue reply)
  | Some _, None => fails (Errorf_key_does_not_exist (hKey h)) (ActualValue reply)
  | Some exp, Some cur =>
      if bytes_Equal exp cur then as_Put /\ writes
      else fails (Errorf_key_does_not_match_existing (hKey h))
             (Some {| Bytes := Some cur |})
  | None, None => as_Put /\ writes
  end.
Proof.
  intros Hget. unfold Range_ConditionalPut, Range_Put, engine_get. run.
  rewrite Hget.
  destruct (internalPut_engine (hKey h) v w) as (w' & Hput & Hengine).
  destruct (Bytes ExpValue) as [exp|], val as [cur|]; simpl; try reflexivity.
  - destruct (bytes_Equal exp cur); simpl; [|reflexivity].
    rewrite Hput. split; [reflexivity|]. exists w'. now repeat split.
  - rewrite Hput. split; [reflexivity|]. exists w'. now repeat split.
Qed.

(** *** InternalRangeLookup *)

(** On a key that passes the two validations and is shorter than the
    level-1 prefix, the slice expression for the metadata-level prefix
    panics once the scan has returned. *)
Lemma InternalRangeLookup_short_key (w : World) (h : RequestHeader)
  (reply : InternalRangeLookupResponse_t) :
  HasPrefix (hKey h) KeyMetaPrefix = true ->
  Less (hKey h) (EndKey (Desc (Meta (rng w)))) = true ->
  snd (Engine.scan (engine (rng w)) (NextKey (hKey h)) KeyMax 1) = None ->
  (List.length (hKey h) < List.length KeyMeta1Prefix)%nat ->
  Range_InternalRangeLookup h reply w = Panicked "slice bounds out of range".
Proof.
  intros Hpre Hless Hscan Hlen.
  unfold Range_InternalRangeLookup, engine_scan, slice_to. run.
  rewrite Hpre, Hless. simpl.
  destruct (Engine.scan _ _ _ _) as [kvs err]. simpl in Hscan. subst err.
  destruct (Nat.leb_spec (List.length KeyMeta1Prefix) (List.length (hKey h)));
    [lia | reflexivity].
Qed.

(** On a key that passes the two validations and is at least as long as the
    level-1 prefix, when the scan from the key after it returns: the lookup
    returns, with the world as it was; the reply holds the decoded
    descriptor and the key it was found at, with no error set, when the scan
    gave one pair whose key has the metadata-level prefix of the argument,
    whose value decodes, and the argument is not below the start key of the
    descriptor; the error is "key not found in range" when the scan did not
    give one pair with that prefix. *)
Lemma InternalRangeLookup_long_key (w : World) (h : RequestHeader)
  (reply : InternalRangeLookupResponse_t) (kvs : list rawKeyValue) :
  HasPrefix (hKey h) KeyMetaPrefix = true ->
  Less (hKey h) (EndKey (Desc (Meta (rng w)))) = true ->
  Engine.scan (engine (rng w)) (NextKey (hKey h)) KeyMax 1 = (kvs, None) ->
  (List.length KeyMeta1Prefix <= List.length (hKey h))%nat ->
  exists reply',
    Range_InternalRangeLookup h reply w = Done reply' w
    /\ let metaPrefix := firstn (List.length KeyMeta1Prefix) (hKey h) in
       let not_found :=
         reply' = {| Lookup_hdr :=
                       set_Error (Lookup_hdr reply)
                         (Some (Errorf_key_not_found_in_range
                                  (RangeID (Meta (rng w)))));
                     Lookup_EndKey := Lookup_EndKey reply;
                     Lookup_Range := Lookup_Range reply |} in
       match kvs with
       | [kv] =>
           if HasPrefix (key kv) metaPrefix then
             let (range, err) :=
               gob_Decode_RangeDescriptor (contents (value kv))
                 (Lookup_Range reply) in
             match err with
             | Some e =>
                 reply' = {| Lookup_hdr := set_Error (Lookup_hdr reply) (Some e);
                             Lookup_EndKey := Lookup_EndKey reply;
                             Lookup_Range := range |}
             | None =>
                 if Less (hKey h) (StartKey range) then
                   reply' = {| Lookup_hdr :=
                                 set_Error (Lookup_hdr reply)
                                   (Some (Errorf_no_range_found_for_key (hKey h)
                                            (Meta (rng w))));
                               Lookup_EndKey := Lookup_EndKey reply;
                               Lookup_Range := range |}
                 else
                   reply' = {| Lookup_hdr := Lookup_hdr reply;
                               Lookup_EndKey := key kv;
                               Lookup_Range := range |}
             end
           else not_found
       | _ => not_found
       end.
Proof.
  intros Hpre Hless Hscan Hlen.
  unfold Range_InternalRangeLookup, engine_scan, slice_to. run.
  rewrite Hpre, Hless. simpl. rewrite Hscan. simpl.
  destruct (Nat.leb_spec (List.length KeyMeta1Prefix) (List.length (hKey h)));
    [|lia].
  simpl. destruct kvs as [|kv [|kv' kvs]]; try (now eexists).
  destruct (HasPrefix (key kv) _); simpl; [|now eexists].
  destruct (gob_Decode_RangeDescriptor _ _) as [range [e|]]; simpl;
    [now eexists|].
  destruct (Less (hKey h) (StartKey range)); now eexists.
Qed.

Lemma HasPrefix_firstn (s p : list byte) :
  HasPrefix s p = true -> firstn (List.length p) s = p.
Proof.
  revert s; induction p as [|x p IH]; intros [|y s]; simpl; try reflexivity;
    try discriminate.
  intros Hpre. apply andb_true_iff in Hpre as [Hxy Hpre].
  apply Byte.byte_dec_bl in Hxy. subst y. f_equal. now apply IH.
Qed.

(** The bare metadata prefix is such a short key whenever the level-1 prefix
    is longer than it. *)
Lemma InternalRangeLookup_bare_prefix (w : World) (h : RequestHeader)
  (reply : InternalRangeLookupResponse_t) :
  hKey h = KeyMetaPrefix ->
  (List.length KeyMetaPrefix < List.length KeyMeta1Prefix)%nat ->
  Less KeyMetaPrefix (EndKey (Desc (Meta (rng w)))) = true ->
  snd (Engine.scan (engine (rng w)) (NextKey KeyMetaPrefix) KeyMax 1) = None ->
  Range_InternalRangeLookup h reply w = Panicked "slice bounds out of range".
Proof.
  intros Hkey Hlen Hless Hscan.
  apply InternalRangeLookup_short_key; rewrite Hkey; auto using HasPrefix_refl.
Qed.

(** A key with the level-1 prefix is long enough, and its metadata-level
    prefix is the level-1 prefix. *)
Lemma InternalRangeLookup_level1_key (w : World) (h : RequestHeader)
  (reply : InternalRangeLookupResponse_t) (kvs : list rawKeyValue) :
  HasPrefix (hKey h) KeyMetaPrefix = true ->
  HasPrefix (hKey h) KeyMeta1Prefix = true ->
  Less (hKey h) (EndKey (Desc (Meta (rng w)))) = true ->
  Engine.scan (engine (rng w)) (NextKey (hKey h)) KeyMax 1 = (kvs, None) ->
  firstn (List.length KeyMeta1Prefix) (hKey h) = KeyMeta1Prefix
  /\ exists reply', Range_InternalRangeLookup h reply w = Done reply' w.
Proof.
  intros Hmeta Hlevel Hless Hscan. split; [now apply HasPrefix_firstn|].
  destruct (InternalRangeLookup_long_key w h reply kvs Hmeta Hless Hscan
              (HasPrefix_length _ _ Hlevel)) as (reply' & Hrun & _).
  now exists reply'.
Qed.

(** A method name that is none of the fourteen is answered with
    "unrecognized command type", the reply and the world left as they
    were. *)
Lemma executeCmd_unrecognized (method : string) (args : Args) (reply : Reply)
  (w : World) :
  ~ In method methods ->
  executeCmd method args reply w
  = Done (reply, Some (Errorf_unrecognized_command_type method)) w.
Proof.
  intros Hnot.
  assert (forall c, In c methods -> String.eqb method c = false) as Hne.
  { intros c Hin. apply String.eqb_neq. intros ->. contradiction. }
  unfold executeCmd, executeCmd_switch.
  repeat (rewrite Hne; [|simpl; tauto]).
  reflexivity.
Qed.

(** *** What the commands keep of the range *)

#[local] Instance books_same_Keeps : Keeps (books_same : World -> World -> Prop).
Proof.
  split.
  - split; [intros w; now repeat split|].
    intros w1 w2 w3 (Hm1 & Ht1 & Hq1) (Hm2 & Ht2 & Hq2).
    repeat split; congruence.
  - intros e w. now repeat split.
  - intros g w. now repeat split.
  - intros rc w. now repeat split.
  - intros ev w. now repeat split.
Qed.

Section Keeping.

Context (R : World -> World -> Prop) `{!Keeps R}.

Lemma keeps_emit_all (evs : list Event) (w : World) :
  R w {| rng := rng w; configPrefixes := configPrefixes w;
         trace := trace w ++ evs |}.
Proof.
  revert w. induction evs as [|ev evs IH]; intros w.
  - rewrite app_nil_r. destruct w. reflexivity.
  - transitivity {| rng := rng w; configPrefixes := configPrefixes w;
                    trace := trace w ++ [ev] |}; [apply keeps_emit|].
    specialize (IH {| rng := rng w; configPrefixes := configPrefixes w;
                      trace := trace w ++ [ev] |}).
    simpl in IH. rewrite <- app_assoc in IH. exact IH.
Qed.

Lemma keeps_emit_preserves (ev : Event) : preserves R (emit ev : M unit).
Proof. intros w a w' Heq. injection Heq as _ <-. apply keeps_emit. Qed.

Lemma keeps_engine_put (k : Key) (v : byteslice) :
  preserves R (engine_put k v : M (option error)).
Proof.
  intros w a w' Heq. unfold engine_put, bind, the_range, set_range, ret in Heq.
  destruct (Engine.put (engine (rng w)) k v) as [e' err]. injection Heq as _ <-.
  apply keeps_engine.
Qed.

Lemma keeps_engine_clear (k : Key) :
  preserves R (engine_clear k : M (option error)).
Proof.
  intros w a w' Heq. unfold engine_clear, bind, the_range, set_range, ret in Heq.
  destruct (Engine.clear (engine (rng w)) k) as [e' err]. injection Heq as _ <-.
  apply keeps_engine.
Qed.

Lemma keeps_call_increment (k : Key) (inc : Z) :
  preserves R (call_increment k inc : M (Z * option error)).
Proof.
  intros w a w' Heq. unfold call_increment, bind, the_range, set_range, ret in Heq.
  destruct (increment (engine (rng w)) k inc) as [e' res]. injection Heq as _ <-.
  apply keeps_engine.
Qed.

Lemma keeps_call_PutResponse (c : ClientCmdID) (reply : Reply) :
  preserves R (call_PutResponse c reply : M (option error)).
Proof.
  intros w a w' Heq.
  unfold call_PutResponse, bind, the_range, set_range, emit, ret in Heq.
  destruct (ResponseCache.PutResponse (respCache (rng w)) (engine (rng w)) c reply)
    as [[rc' e'] err].
  simpl in Heq. injection Heq as _ <-.
  transitivity {| rng := with_engine e' (rng w);
                  configPrefixes := configPrefixes w; trace := trace w |};
    [apply keeps_engine|].
  transitivity {| rng := with_respCache rc' (with_engine e' (rng w));
                  configPrefixes := configPrefixes w; trace := trace w |};
    [exact (keeps_respCache rc' {| rng := with_engine e' (rng w);
                                   configPrefixes := configPrefixes w;
                                   trace := trace w |})|].
  exact (keeps_emit _ {| rng := with_respCache rc' (with_engine e' (rng w));
                         configPrefixes := configPrefixes w; trace := trace w |}).
Qed.

Lemma keeps_call_GetResponse (c : ClientCmdID) (reply : Reply) :
  preserves R (call_GetResponse c reply : M (Reply * (bool * option error))).
Proof.
  intros w a w' Heq.
  unfold call_GetResponse, bind, the_range, set_range, ret in Heq.
  destruct (ResponseCache.GetResponse (respCache (rng w)) (engine (rng w)) c reply)
    as [[rc' reply'] res].
  injection Heq as _ <-. apply keeps_respCache.
Qed.

Lemma keeps_maybeGossipConfigs : preserves R (maybeGossipConfigs : M unit).
Proof.
  intros w a w' Heq. pose proof (maybeGossipConfigs_run w) as Hrun.
  destruct (gossip (rng w)) as [g|].
  - destruct Hrun as (g' & evs & Hrun & _). rewrite Hrun in Heq.
    injection Heq as _ <-. unfold gossiped.
    transitivity {| rng := with_gossip (Some g') (rng w);
                    configPrefixes := configPrefixes w; trace := trace w |};
      [apply keeps_gossip|].
    exact (keeps_emit_all evs {| rng := with_gossip (Some g') (rng w);
                                 configPrefixes := configPrefixes w;
                                 trace := trace w |}).
  - rewrite Hrun in Heq. injection Heq as _ <-. reflexivity.
Qed.

Hint Resolve keeps_emit_preserves keeps_engine_put keeps_engine_clear
  keeps_call_increment keeps_call_PutResponse keeps_call_GetResponse
  keeps_maybeGossipConfigs : preserves.

Lemma keeps_internalPut (k : Key) (v : Value) :
  preserves R (internalPut k v : M (option error)).
Proof.
  unfold internalPut. preserves_tac.
  intros w u w' Heq. rewrite internalPut_loop_run in Heq.
  destruct (existsb _ _).
  - exact (keeps_maybeGossipConfigs _ _ _ Heq).
  - injection Heq as _ <-. reflexivity.
Qed.

Hint Resolve keeps_internalPut : preserves.

Lemma keeps_executeCmd_switch (method : string) (args : Args) (reply : Reply) :
  preserves R (executeCmd_switch method args reply : M (Reply + error)).
Proof.
  unfold executeCmd_switch.
  repeat match goal with
         | |- preserves _ (if String.eqb ?m ?c then _ else _) =>
             destruct (String.eqb m c)
         end;
    try (destruct args, reply; try apply preserves_panic;
         apply preserves_bind;
         [typeclasses eauto| |intros; apply preserves_ret; typeclasses eauto]).
  all: try (apply preserves_ret; typeclasses eauto).
  all: unfold_handlers; preserves_tac.
Qed.

Lemma keeps_executeCmd (method : string) (args : Args) (reply : Reply) :
  preserves R (executeCmd method args reply : M (Reply * option error)).
Proof.
  unfold executeCmd.
  apply preserves_bind;
    [typeclasses eauto | apply keeps_executeCmd_switch|].
  intros [r|e]; preserves_tac.
Qed.

End Keeping.

(** X10. [executeCmd], whatever the method and whatever it returns, leaves the
    metadata of the range, its timestamp cache and its read queue as they
    were. *)
Theorem executeCmd_keeps_books (method : string) (args : Args) (reply : Reply)
  (w : World) res w' :
  executeCmd method args reply w = Done res w' ->
  Meta (rng w') = Meta (rng w)
  /\ tsCache (rng w') = tsCache (rng w)
  /\ readQ (rng w') = readQ (rng w).
Proof. apply (keeps_executeCmd books_same). Qed.

(** X11. [ReadOnlyCmd], whatever the method and whether the command succeeds,
    has recorded the read in the timestamp cache and in the read queue when
    it returns; for a read-only method it has changed nothing else. *)
Theorem ReadOnlyCmd_registers_read (method : string) (header : RequestHeader)
  (args : Args) (reply : Reply) (w : World) res w' :
  ReadOnlyCmd method header args reply w = Done res w' ->
  tsCache (rng w')
  = ReadTimestampCache.Add (tsCache (rng w)) (hKey header) (hEndKey header)
      (hTimestamp header)
  /\ readQ (rng w') = ReadQueue.AddRead (readQ (rng w)) (hKey header) (hEndKey header)
  /\ Meta (rng w') = Meta (rng w)
  /\ (IsReadOnly method = true ->
      engine (rng w') = engine (rng w) /\ respCache (rng w') = respCache (rng w)
      /\ gossip (rng w') = gossip (rng w) /\ trace w' = trace w
      /\ configPrefixes w' = configPrefixes w).
Proof.
  unfold ReadOnlyCmd, IsLeader. run. intros Hrun.
  destruct (keeps_executeCmd books_same _ _ _ _ _ _ Hrun) as (Hm & Ht & Hq).
  simpl in Hm, Ht, Hq. repeat apply conj; auto.
  intros Hro. rewrite <- (read_only_keeps_world method args reply Hro _ _ _ Hrun).
  now repeat split.
Qed.

(** X12. [ReadWriteCmd], when it returns: answered from the response cache, it
    has left the read queue as it was; otherwise the pending write it added
    has been removed under the handle [AddWrite] gave, whatever the outcome
    of the command. Either way the timestamp cache and the metadata are as
    they were, and the header returned has the key range and the command
    identifier of the header given. *)
Theorem ReadWriteCmd_removes_pending_write (method : string)
  (header : RequestHeader) (args : Args) (reply : Reply) (w : World)
  (rc' : RC) (reply' : Reply) (ok : bool) (err : option error) h' r' e w' :
  ResponseCache.GetResponse (respCache (rng w)) (engine (rng w)) (hCmdID header)
    reply = (rc', reply', (ok, err)) ->
  ReadWriteCmd method header args reply w = Done (h', r', e) w' ->
  readQ (rng w')
  = (if ok then readQ (rng w)
     else let (q, wKey) :=
            ReadQueue.AddWrite (readQ (rng w)) (hKey header) (hEndKey header) in
          ReadQueue.RemoveWrite q wKey)
  /\ tsCache (rng w') = tsCache (rng w)
  /\ Meta (rng w') = Meta (rng w)
  /\ hKey h' = hKey header /\ hEndKey h' = hEndKey header
  /\ hCmdID h' = hCmdID header.
Proof.
  intros Hget Hrun.
  rewrite (ReadWriteCmd_after_lookup _ _ _ _ _ _ _ _ _ Hget) in Hrun.
  destruct ok.
  - injection Hrun as <- _ _ <-. now repeat split.
  - revert Hrun. unfold ReadWriteCmd_submit, EnqueueCmd. run.
    assert (forall ts, hKey (fst (forward_timestamp ts header reply')) = hKey header
                       /\ hEndKey (fst (forward_timestamp ts header reply'))
                          = hEndKey header
                       /\ hCmdID (fst (forward_timestamp ts header reply'))
                          = hCmdID header) as Hfwd.
    { intros ts. unfold forward_timestamp.
      now destruct (Timestamp_Less (hTimestamp header) ts). }
    match goal with
    | |- context [forward_timestamp ?ts header reply'] =>
        specialize (Hfwd ts); destruct (forward_timestamp ts header reply')
          as [h1 r1]
    end.
    simpl in Hfwd. destruct Hfwd as (Hk & Hek & Hid). rewrite Hk, Hek.
    destruct (ReadQueue.AddWrite (readQ (rng w)) (hKey header) (hEndKey header))
      as [q wKey]. run.
    match goal with
    | |- context [executeCmd ?m ?a ?rp ?w0] =>
        destruct (executeCmd m a rp w0) as [[r2 e2] w2|] eqn:Hexec
    end; [|discriminate].
    intros Heq. injection Heq as <- _ _ <-.
    destruct (keeps_executeCmd books_same _ _ _ _ _ _ Hexec) as (Hm & Ht & Hq).
    simpl in Hm, Ht, Hq. simpl. rewrite Hq. repeat apply conj; auto.
Qed.

(** X9. The error [executeCmd] returns: for each of the fourteen methods, the
    error embedded in the reply as the handler left it; for any other name,
    "unrecognized command type", the reply and the world being as they
    were. *)
Theorem executeCmd_returns_embedded_error (method : string) (args : Args)
  (reply : Reply) (w : World) r' err w' :
  executeCmd method args reply w = Done (r', err) w' ->
  if has_key methods method then err = reply_Error r'
  else err = Some (Errorf_unrecognized_command_type method)
       /\ r' = reply /\ w' = w.
Proof.
  intros Hrun. destruct (has_key methods method) eqn:Hin.
  - destruct (executeCmd_switch method args reply w) as [[r1|e1] w1|] eqn:Hsw.
    + rewrite (executeCmd_after_handler _ _ _ _ _ _ Hsw) in Hrun.
      destruct (IsReadOnly method);
        [|destruct (ResponseCache.PutResponse _ _ _ _) as [[rc2 e2] putErr]];
        now injection Hrun as <- <- _.
    + exfalso. revert Hsw. unfold executeCmd_switch.
      apply has_key_In in Hin. simpl in Hin.
      repeat (destruct Hin as [<-|Hin]; [simpl|]); try contradiction;
        destruct args, reply; try discriminate; unfold bind;
        match goal with
        | |- context [match ?m w with _ => _ end] => destruct (m w)
        end; discriminate.
    + unfold executeCmd, bind in Hrun. rewrite Hsw in Hrun. discriminate.
  - assert (~ In method methods) as Hnot.
    { intros Hm. apply has_key_In in Hm. congruence. }
    rewrite (executeCmd_unrecognized method args reply w Hnot) in Hrun.
    now injection Hrun as <- <- <-.
Qed.

(** *** More on the handlers *)

(** X14. [Put] returns on every world. The error of its reply is the error of the
    engine's [put], nil included; the engine is as that call left it,
    whatever the rebroadcast did; the response cache and the table are as
    they were; and a failed write rebroadcasts nothing. *)
Theorem Put_reports_engine_put (w : World) (h : RequestHeader) (v : Value)
  (reply : ResponseHeader) :
  let written := Engine.put (engine (rng w)) (hKey h) (Bytes v) in
  exists w',
    Range_Put h v reply w = Done (set_Error reply (snd written)) w'
    /\ engine (rng w') = fst written
    /\ respCache (rng w') = respCache (rng w)
    /\ configPrefixes w' = configPrefixes w
    /\ (snd written <> None ->
        gossip (rng w') = gossip (rng w) /\ trace w' = trace w).
Proof.
  unfold Range_Put, internalPut, engine_put. run.
  destruct (Engine.put (engine (rng w)) (hKey h) (Bytes v)) as [e' [e|]]; run.
  - eexists. split; [reflexivity|]. now repeat split.
  - rewrite internalPut_loop_run. destruct (existsb _ _).
    + match goal with |- context [maybeGossipConfigs ?w0] =>
        pose proof (maybeGossipConfigs_run w0) as Hrun; simpl in Hrun
      end.
      destruct (gossip (rng w)) as [g|].
      * destruct Hrun as (g' & evs & -> & _).
        eexists. split; [reflexivity|]. simpl.
        repeat apply conj; auto; congruence.
      * rewrite Hrun. eexists. split; [reflexivity|]. simpl.
        repeat apply conj; auto; congruence.
    + eexists. split; [reflexivity|]. simpl.
      repeat apply conj; auto; congruence.
Qed.

(** X15. On a range with a gossip handle and the table as declared, a Put whose
    key is under one tracked prefix rebroadcasts the map of every tracked
    prefix the range contains, not only that of its own prefix: no flag of
    the table is ever cleared. *)
Theorem Put_rebroadcasts_every_prefix (w : World) (h : RequestHeader)
  (v : Value) (reply : ResponseHeader) (e' : E) (g : G) :
  configPrefixes w = configPrefixes_decl ->
  existsb (fun cp => HasPrefix (hKey h) (keyPrefix cp)) (configPrefixes w) = true ->
  Engine.put (engine (rng w)) (hKey h) (Bytes v) = (e', None) ->
  gossip (rng w) = Some g ->
  exists w' evs,
    Range_Put h v reply w = Done (set_Error reply None) w'
    /\ trace w' = trace w ++ evs
    /\ forall cp, In cp (configPrefixes w) ->
         RangeDescriptor_ContainsKey (Desc (Meta (rng w))) (keyPrefix cp) = true ->
         exists res, loadConfigMap (keyPrefix cp) (configI cp) w' = Done res w'
                     /\ rebroadcast_of cp res evs.
Proof.
  intros Htbl Hex Hput Hg.
  unfold Range_Put, internalPut, engine_put. run. rewrite Hput. run.
  rewrite internalPut_loop_run, Hex.
  match goal with |- context [maybeGossipConfigs ?w0] =>
    pose proof (maybeGossipConfigs_run w0) as Hrun; simpl in Hrun;
    set (w1 := w0) in *
  end.
  rewrite Hg in Hrun. destruct Hrun as (g' & evs & Hrun & Hevs). rewrite Hrun.
  eexists _, evs. split; [reflexivity|]. split; [reflexivity|].
  intros cp Hin Hc.
  assert (dirty cp = true) as Hdirty.
  { rewrite Htbl in Hin. simpl in Hin.
    destruct Hin as [<-|[<-|[<-|[]]]]; reflexivity. }
  destruct (loadConfigMap_run (keyPrefix cp) (configI cp) w1) as [res Hres].
  exists res. split; [now apply Hres|]. apply Hevs; auto.
Qed.

(** X16. When the engine's [get] succeeds, [Contains] only ever sets [Exists]: it
    is set when the key has a value and kept as it came otherwise; the
    header of the reply, its error included, is the one the reply came
    with, so that is the error [executeCmd] returns. *)
Theorem Contains_keeps_reply_fields (w : World) (h : RequestHeader)
  (reply : ContainsResponse_t) (val : byteslice) :
  Engine.get (engine (rng w)) (hKey h) = (val, None) ->
  let reply' :=
    {| Contains_hdr := Contains_hdr reply;
       Exists := Exists reply || match val with Some _ => true | None => false end |} in
  Range_Contains h reply w = Done reply' w
  /\ executeCmd Contains (ContainsRequest h) (ContainsResponse reply) w
     = Done (ContainsResponse reply', Error (Contains_hdr reply)) w.
Proof.
  intros Hget reply'.
  assert (Range_Contains h reply w = Done reply' w) as Hrun.
  { unfold Range_Contains, engine_get. run. rewrite Hget. subst reply'.
    destruct val; simpl.
    - now rewrite orb_true_r.
    - rewrite orb_false_r. now destruct reply. }
  split; [exact Hrun|].
  unfold executeCmd, executeCmd_switch. simpl. unfold bind at 1 2.
  now rewrite Hrun.
Qed.

(** X17. [loadConfigMap]: an error of the scan is returned as it is; when a value
    does not decode, the error names the key of the first such pair and no
    map is made; otherwise the map is made of one config per pair scanned, in
    the order of the scan, each under its key without the prefix. The world
    is left as it was. *)
Theorem loadConfigMap_result (kp : Key) (ci : Config) (w : World) :
  let decode kv := gob_Decode_Config (contents (value kv)) ci in
  match Engine.scan (engine (rng w)) kp (PrefixEndKey kp) 0 with
  | (_, Some e) => loadConfigMap kp ci w = Done ([], Some e) w
  | (kvs, None) =>
      match find (fun kv => match snd (decode kv) with
                            | Some _ => true
                            | None => false
                            end) kvs with
      | Some kv =>
          exists cause,
            snd (decode kv) = Some cause
            /\ loadConfigMap kp ci w
               = Done ([], Some (Errorf_unable_to_unmarshal_config_key (key kv)
                                   cause)) w
      | None =>
          loadConfigMap kp ci w
          = Done (NewPrefixConfigMap
                    (map (fun kv => {| Prefix := TrimPrefix (key kv) kp;
                                       PC_Config := fst (decode kv) |}) kvs)) w
      end
  end.
Proof.
  cbv zeta beta. unfold loadConfigMap, engine_scan. run.
  destruct (Engine.scan (engine (rng w)) kp (PrefixEndKey kp) 0) as [kvs [e|]];
    [reflexivity|].
  assert (forall acc,
            loadConfigMap_loop kp ci kvs acc
            = match find (fun kv =>
                            match snd (gob_Decode_Config (contents (value kv)) ci)
                            with
                            | Some _ => true
                            | None => false
                            end) kvs with
              | Some kv =>
                  match snd (gob_Decode_Config (contents (value kv)) ci) with
                  | Some cause =>
                      inr (Errorf_unable_to_unmarshal_config_key (key kv) cause)
                  | None => inl []
                  end
              | None =>
                  inl (acc ++ map (fun kv =>
                                     {| Prefix := TrimPrefix (key kv) kp;
                                        PC_Config :=
                                          fst (gob_Decode_Config
                                                 (contents (value kv)) ci) |})
                                  kvs)
              end) as Hloop.
  { induction kvs as [|kv kvs IH]; intros acc.
    - simpl. now rewrite app_nil_r.
    - cbn [loadConfigMap_loop find map].
      destruct (gob_Decode_Config (contents (value kv)) ci) as [config [e|]]
        eqn:Hdec; cbn [fst snd]; [now rewrite Hdec|].
      rewrite IH.
      destruct (find _ kvs) as [kv'|]; [reflexivity|].
      now rewrite <- app_assoc. }
  rewrite (Hloop []).
  destruct (find _ kvs) as [kv|] eqn:Hfind; [|reflexivity].
  apply find_some in Hfind as [_ Hfail].
  destruct (snd (gob_Decode_Config (contents (value kv)) ci)) as [cause|];
    [|discriminate].
  now exists cause.
Qed.

(** X18. The timestamp check, when the logical counter of [ts] is not at its
    maximum: it never moves the timestamp of the header backwards, it leaves
    the key range and the command identifier of the header alone, and done
    again on its own result with the same [ts] it changes nothing. *)
Theorem forward_timestamp_monotone (ts : Timestamp) (header : RequestHeader)
  (reply : Reply) :
  Logical ts <> Logical_max ->
  let h' := fst (forward_timestamp ts header reply) in
  let r' := snd (forward_timestamp ts header reply) in
  Timestamp_Less (hTimestamp h') (hTimestamp header) = false
  /\ hKey h' = hKey header /\ hEndKey h' = hEndKey header
  /\ hCmdID h' = hCmdID header
  /\ forward_timestamp ts h' r' = (h', r').
Proof.
  intros Hmax. unfold forward_timestamp.
  destruct (Timestamp_Less (hTimestamp header) ts) eqn:Hless; simpl.
  - pose proof (Timestamp_Less_incr ts Hmax) as Hincr.
    rewrite (Timestamp_Less_asym _ _ Hincr). repeat apply conj; auto.
    destruct (Timestamp_Less (Logical_incr ts) (hTimestamp header)) eqn:Hback;
      [|reflexivity].
    apply Timestamp_Less_spec in Hless, Hincr, Hback. lia.
  - rewrite Hless. repeat apply conj; auto.
    destruct (Timestamp_Less (hTimestamp header) (hTimestamp header)) eqn:Hself;
      [|reflexivity].
    apply Timestamp_Less_spec in Hself. lia.
Qed.

(** X19. [ConditionalPut] writes all or nothing: on every world and for every
    argument, either it returns with an error set in the reply and the world
    exactly as it was, or it is the computation of [Put] on the same key and
    value. *)
Theorem ConditionalPut_all_or_nothing (w : World) (h : RequestHeader)
  (v ExpValue : Value) (reply : ConditionalPutResponse_t) :
  (exists e actual,
     Range_ConditionalPut h v ExpValue reply w
     = Done {| CPut_hdr := set_Error (CPut_hdr reply) (Some e);
               ActualValue := actual |} w)
  \/ Range_ConditionalPut h v ExpValue reply w
     = match Range_Put h v (CPut_hdr reply) w with
       | Done hdr w' =>
           Done {| CPut_hdr := hdr; ActualValue := ActualValue reply |} w'
       | Panicked msg => Panicked msg
       end.
Proof.
  unfold Range_ConditionalPut, Range_Put, engine_get. run.
  destruct (Engine.get (engine (rng w)) (hKey h)) as [val [e|]].
  - left. now eexists _, _.
  - destruct (Bytes ExpValue) as [exp|], val as [cur|]; simpl.
    + destruct (bytes_Equal exp cur); simpl.
      * right. now destruct (internalPut (hKey h) v w).
      * left. now eexists _, _.
    + left. now eexists _, _.
    + left. now eexists _, _.
    + right. now destruct (internalPut (hKey h) v w).
Qed.

(** X21. A lookup of a key with the level-1 prefix, below the end key of the
    range, whose scan succeeds, returns; and it sets no descriptor and no
    end key but "key not found in range" when the scan gave nothing or a
    pair whose key is not at level 1. *)
Theorem InternalRangeLookup_at_level1 (w : World) (h : RequestHeader)
  (reply : InternalRangeLookupResponse_t) (kvs : list rawKeyValue) :
  HasPrefix (hKey h) KeyMetaPrefix = true ->
  HasPrefix (hKey h) KeyMeta1Prefix = true ->
  Less (hKey h) (EndKey (Desc (Meta (rng w)))) = true ->
  Engine.scan (engine (rng w)) (NextKey (hKey h)) KeyMax 1 = (kvs, None) ->
  exists reply',
    Range_InternalRangeLookup h reply w = Done reply' w
    /\ ((kvs = [] \/ exists kv, kvs = [kv]
                                /\ HasPrefix (key kv) KeyMeta1Prefix = false) ->
        reply' = {| Lookup_hdr :=
                      set_Error (Lookup_hdr reply)
                        (Some (Errorf_key_not_found_in_range
                                 (RangeID (Meta (rng w)))));
                    Lookup_EndKey := Lookup_EndKey reply;
                    Lookup_Range := Lookup_Range reply |}).
Proof.
  intros Hmeta Hlevel Hless Hscan.
  destruct (InternalRangeLookup_long_key w h reply kvs Hmeta Hless Hscan
              (HasPrefix_length _ _ Hlevel)) as (reply' & Hrun & Hcases).
  exists reply'. split; [exact Hrun|].
  simpl in Hcases. rewrite (HasPrefix_firstn _ _ Hlevel) in Hcases.
  intros [->|(kv & -> & Hkv)]; [exact Hcases|].
  now rewrite Hkv in Hcases.
Qed.

End Properties.

(** ** The pipeline on the in-memory collaborators *)

(** C7. The key made of the bare metadata prefix passes both validations of
    [InternalRangeLookup] (it has the metadata prefix and is below the end
    key of the range), it is shorter than the level-1 prefix, and the lookup
    panics at the slice expression for the metadata-level prefix. *)
Theorem InternalRangeLookup_bare_prefix_panics :
  let h := Sim.header0 Sim.meta_prefix 5 in
  let w := Sim.world0 None in
  HasPrefix (hKey h) KeyMetaPrefix = true
  /\ Less (hKey h) (EndKey (Desc (Meta (rng w)))) = true
  /\ (List.length (hKey h) < List.length (KeyMeta1Prefix (E := Sim.mem)))%nat
  /\ (Range_InternalRangeLookup h Sim.lookup_reply0 : Sim.cmd _) w
     = Panicked "slice bounds out of range".
Proof.
  repeat apply conj; try reflexivity.
  simpl. lia.
Qed.

(** C6. With the metadata record of the range from the least key to "m" in
    the engine: the lookup of the level-1 key of "b" returns the descriptor and
    the key of the record; the lookup of the bare metadata prefix, for which
    the scan gives that same record, neither returns a descriptor nor sets
    the error "key not found in range": it panics. *)
Theorem InternalRangeLookup_bare_prefix_with_record :
  let w := Sim.world_with [Sim.meta1_record] in
  let long := Sim.header0 (Sim.meta_prefix ++ bytes_of "1b") 5 in
  let bare := Sim.header0 Sim.meta_prefix 5 in
  (Range_InternalRangeLookup long Sim.lookup_reply0 : Sim.cmd _) w
  = Done {| Lookup_hdr := Sim.rheader0;
            Lookup_EndKey := fst Sim.meta1_record;
            Lookup_Range := {| StartKey := []; EndKey := bytes_of "m";
                               Replicas := [] |} |} w
  /\ HasPrefix (hKey bare) KeyMetaPrefix = true
  /\ Less (hKey bare) (EndKey (Desc (Meta (rng w)))) = true
  /\ Engine.scan (engine (rng w)) (NextKey (hKey bare)) KeyMax 1
     = ([ {| key := fst Sim.meta1_record;
             value := Some (snd Sim.meta1_record) |} ], None)
  /\ (Range_InternalRangeLookup bare Sim.lookup_reply0 : Sim.cmd _) w
     = Panicked "slice bounds out of range".
Proof. repeat apply conj; reflexivity. Qed.

(** C1, the claim as stated fails, in two ways. A read of the key "a" at
    the timestamp (7, 0) is registered by [ReadOnlyCmd]; [GetMax] then gives
    (7, 0) for the key; a Put of "a" whose header carries the timestamp
    (7, 0), which [GetMax] is at, leaves [ReadWriteCmd] with the timestamp
    (7, 0) in its header: not above the timestamp of the read. And with a
    read of "a" at (7, 4294967295), the logical counter at the maximum of a
    32-bit counter, a Put of "a" at (7, 5) is below the read, the increment
    of the counter wraps, and the Put leaves [ReadWriteCmd] with (7, 0) in
    its header and in its reply: below the timestamp of the read, and below
    the timestamp the Put came with. *)
Lemma write_not_after_an_overlapping_read :
  let read := Sim.header0 (bytes_of "a") 7 in
  let write := {| hTimestamp := Sim.timestamp 7 0;
                  hCmdID := {| CmdID_WallTime := 8; CmdID_Random := 2 |};
                  hKey := bytes_of "a"; hEndKey := [] |} in
  let last := Sim.timestamp 7 4294967295 in
  let late := {| hTimestamp := Sim.timestamp 7 5;
                 hCmdID := {| CmdID_WallTime := 8; CmdID_Random := 2 |};
                 hKey := bytes_of "a"; hEndKey := [] |} in
  (exists w1 res1 w2 h2 r2 e2,
     (ReadOnlyCmd Get read (GetRequest read) Sim.get_reply0 : Sim.cmd _)
       (Sim.world0 None) = Done res1 w1
     /\ ReadTimestampCache.GetMax (tsCache (rng w1)) (hKey write) (hEndKey write)
        = hTimestamp read
     /\ Timestamp_Less (ReadTimestampCache.GetMax (tsCache (rng w1)) (hKey write)
                          (hEndKey write)) (hTimestamp write) = false
     /\ forward_timestamp (hTimestamp read) write (PutResponse Sim.rheader0)
        = (write, PutResponse Sim.rheader0)
     /\ (ReadWriteCmd Put write (PutRequest write (Sim.value_of "1"))
           (PutResponse Sim.rheader0) : Sim.cmd _) w1 = Done (h2, r2, e2) w2
     /\ hTimestamp h2 = hTimestamp read
     /\ Timestamp_Less (hTimestamp read) (hTimestamp h2) = false)
  /\ (exists h3 r3 e3 w3,
        Logical last = Logical_max
        /\ ReadTimestampCache.GetMax (tsCache (rng (Sim.world_read_at last)))
             (hKey late) (hEndKey late) = last
        /\ Timestamp_Less (hTimestamp late) last = true
        /\ (ReadWriteCmd Put late (PutRequest late (Sim.value_of "1"))
              (PutResponse Sim.rheader0) : Sim.cmd _) (Sim.world_read_at last)
           = Done (h3, r3, e3) w3
        /\ hTimestamp h3 = Sim.timestamp 7 0
        /\ rTimestamp (reply_header r3) = Sim.timestamp 7 0
        /\ Timestamp_Less (hTimestamp h3) last = true
        /\ Timestamp_Less (hTimestamp h3) (hTimestamp late) = true).
Proof.
  split.
  - do 6 eexists. repeat apply conj.
    + vm_compute. reflexivity.
    + reflexivity.
    + reflexivity.
    + reflexivity.
    + vm_compute. reflexivity.
    + reflexivity.
    + reflexivity.
  - do 4 eexists. repeat apply conj.
    + reflexivity.
    + reflexivity.
    + reflexivity.
    + vm_compute. reflexivity.
    + reflexivity.
    + reflexivity.
    + reflexivity.
    + reflexivity.
Qed.


(** *** The theorems at concrete commands *)

(** A Put of "a" at the timestamp (5, 0) after a read of "a" at (7, 0)
    leaves with the timestamp (7, 1) in its header and in its reply; a Put
    of "a" at (7, 0) after that read leaves with the header and the reply
    timestamp it came with. *)
Lemma ReadWriteCmd_forwards_write_timestamp_witness :
  let w := Sim.world_read_at (Sim.timestamp 7 0) in
  let before := Sim.header0 (bytes_of "a") 5 in
  let at_read := Sim.header0 (bytes_of "a") 7 in
  (exists h' r' e w',
     (ReadWriteCmd Put before (PutRequest before (Sim.value_of "1"))
        (PutResponse Sim.rheader0) : Sim.cmd _) w = Done (h', r', e) w'
     /\ hTimestamp h' = Sim.timestamp 7 1
     /\ rTimestamp (reply_header r') = Sim.timestamp 7 1)
  /\ (exists h' r' e w',
        (ReadWriteCmd Put at_read (PutRequest at_read (Sim.value_of "1"))
           (PutResponse Sim.rheader0) : Sim.cmd _) w = Done (h', r', e) w'
        /\ h' = at_read
        /\ rTimestamp (reply_header r') = rTimestamp Sim.rheader0).
Proof.
  intros w before at_read. split.
  - destruct ((ReadWriteCmd Put before (PutRequest before (Sim.value_of "1"))
                 (PutResponse Sim.rheader0) : Sim.cmd _) w)
      as [[[h' r'] e] w'|msg] eqn:Hrun; [|vm_compute in Hrun; discriminate].
    exists h', r', e, w'. split; [reflexivity|].
    assert (ResponseCache.GetResponse (respCache (rng w)) (engine (rng w))
              (hCmdID before) (PutResponse Sim.rheader0)
            = (respCache (rng w), PutResponse Sim.rheader0, (false, None)))
      as Hget by (vm_compute; reflexivity).
    destruct (ReadWriteCmd_forwards_write_timestamp Put before
                (PutRequest before (Sim.value_of "1"))
                (PutResponse Sim.rheader0) w (respCache (rng w))
                (PutResponse Sim.rheader0) None h' r' e w' Hget Hrun)
      as (sent & evs & evs' & _ & _ & Hif).
    vm_compute in Hif. destruct Hif as (Hh & _ & Hr & _). now split.
  - destruct ((ReadWriteCmd Put at_read (PutRequest at_read (Sim.value_of "1"))
                 (PutResponse Sim.rheader0) : Sim.cmd _) w)
      as [[[h' r'] e] w'|msg] eqn:Hrun; [|vm_compute in Hrun; discriminate].
    exists h', r', e, w'. split; [reflexivity|].
    assert (ResponseCache.GetResponse (respCache (rng w)) (engine (rng w))
              (hCmdID at_read) (PutResponse Sim.rheader0)
            = (respCache (rng w), PutResponse Sim.rheader0, (false, None)))
      as Hget by (vm_compute; reflexivity).
    destruct (ReadWriteCmd_forwards_write_timestamp Put at_read
                (PutRequest at_read (Sim.value_of "1"))
                (PutResponse Sim.rheader0) w (respCache (rng w))
                (PutResponse Sim.rheader0) None h' r' e w' Hget Hrun)
      as (sent & evs & evs' & _ & _ & Hif).
    vm_compute in Hif. destruct Hif as (Hh & _ & Hr & _). now split.
Defined.

(** A Put whose command identifier has a reply in the response cache
    returns that reply. A Put whose entry in the response cache does not
    decode is executed: the failure is logged, the command is sent to raft,
    [executeCmd] runs on it, and the call returns the reply and the nil
    error of [executeCmd], with the value in the engine. *)
Lemma ReadWriteCmd_consults_response_cache_witness :
  let h := Sim.header0 (bytes_of "a") 5 in
  let args := PutRequest h (Sim.value_of "1") in
  let stored := PutResponse (set_Error Sim.rheader0 (Some Error_unimplemented)) in
  let hit := Sim.world_cached [(hCmdID h, Some stored)] in
  let corrupt := Sim.world_cached [(hCmdID h, None)] in
  (ReadWriteCmd Put h args (PutResponse Sim.rheader0) : Sim.cmd _) hit
  = Done (h, stored, Some Error_unimplemented) (looked_up (respCache (rng hit)) [] hit)
  /\ exists r' w' sent w2,
       (ReadWriteCmd Put h args (PutResponse Sim.rheader0) : Sim.cmd _) corrupt
       = Done (h, r', None) w'
       /\ trace sent
          = [ glog_Errorf
                (unable_to_read_result args (ExternalError "gob: decode failure"));
              raft_send {| Method := Put; Cmd_Args := args;
                           Cmd_Reply := PutResponse Sim.rheader0;
                           ReadOnly := false |} ]
       /\ (executeCmd Put args (PutResponse Sim.rheader0) : Sim.cmd _) sent
          = Done (r', None) w2
       /\ engine (rng w') = engine (rng w2)
       /\ Sim.store (engine (rng w')) = [(bytes_of "a", bytes_of "1")].
Proof.
  intros h args stored hit corrupt. split.
  - exact (proj1 (ReadWriteCmd_consults_response_cache Put h args
                    (PutResponse Sim.rheader0) hit
                    (respCache (rng hit)) stored true None eq_refl) eq_refl).
  - assert (ResponseCache.GetResponse (respCache (rng corrupt))
              (engine (rng corrupt)) (hCmdID h) (PutResponse Sim.rheader0)
            = (respCache (rng corrupt), PutResponse Sim.rheader0,
               (false, Some (ExternalError "gob: decode failure"))))
      as Hget by (vm_compute; reflexivity).
    pose proof (proj2 (proj2 (proj2
                  (ReadWriteCmd_consults_response_cache Put h args
                     (PutResponse Sim.rheader0) corrupt _ _ _ _ Hget))) eq_refl)
      as Hexec.
    cbv zeta in Hexec.
    destruct (ReadQueue.AddWrite (readQ (rng corrupt)) (hKey h) (hEndKey h))
      as [q wKey].
    destruct ((ReadWriteCmd Put h args (PutResponse Sim.rheader0) : Sim.cmd _)
                corrupt)
      as [[[h' r'] e] w'|msg] eqn:Hrun; [|vm_compute in Hrun; discriminate].
    destruct Hexec as (w2 & Hexec & Hh & Hw).
    assert (e = None) as -> by (vm_compute in Hrun; congruence).
    assert (Sim.store (engine (rng w')) = [(bytes_of "a", bytes_of "1")]) as Hstore
      by (vm_compute in Hrun; injection Hrun as _ _ <-; reflexivity).
    eexists r', w', _, w2. rewrite Hh.
    split; [reflexivity|]. split; [|split; [exact Hexec|]].
    + reflexivity.
    + split; [now rewrite Hw | exact Hstore].
Defined.

(** For a Put, the handler returns and the reply reaches the response
    cache. *)
Lemma executeCmd_persists_replies_of_writes_witness :
  let h := Sim.header0 (bytes_of "a") 5 in
  let args := PutRequest h (Sim.value_of "1") in
  well_typed Put args (PutResponse Sim.rheader0) = true
  /\ exists reply1 w1 w2,
       (executeCmd_switch Put args (PutResponse Sim.rheader0) : Sim.cmd _)
         (Sim.world0 None) = Done (inl reply1) w1
       /\ (executeCmd Put args (PutResponse Sim.rheader0) : Sim.cmd _)
            (Sim.world0 None) = Done (reply1, reply_Error reply1) w2
       /\ trace w2 = trace w1 ++ [respCache_PutResponse (hCmdID h) reply1].
Proof.
  intros h args. split; [reflexivity|].
  destruct (executeCmd_persists_replies_of_writes Put args
              (PutResponse Sim.rheader0) (Sim.world0 None) eq_refl
            : exists reply1 w1, _ /\ _) as (reply1 & w1 & Hsw & Hexec).
  exists reply1, w1. eexists. split; [exact Hsw|].
  split; [exact Hexec|]. reflexivity.
Defined.

(** The scenario of the spec: with "1" under the key "a", a ConditionalPut
    expecting "1" writes "2" under "a"; with "2" under "a", a ConditionalPut
    expecting "1" fails and reports the actual value "2". *)
Lemma ConditionalPut_semantics_witness :
  let h := Sim.header0 (bytes_of "a") 5 in
  let w1 := Sim.world_with [(bytes_of "a", bytes_of "1")] in
  let w2 := Sim.world_with [(bytes_of "a", bytes_of "2")] in
  (Engine.get (engine (rng w1)) (hKey h) = (Some (bytes_of "1"), None)
   /\ exists w',
        (Range_ConditionalPut h (Sim.value_of "2") (Sim.value_of "1")
           Sim.cput_reply0 : Sim.cmd _) w1 = Done Sim.cput_reply0 w'
        /\ Sim.store (engine (rng w')) = [(bytes_of "a", bytes_of "2")])
  /\ Engine.get (engine (rng w2)) (hKey h) = (Some (bytes_of "2"), None)
  /\ (Range_ConditionalPut h (Sim.value_of "3") (Sim.value_of "1")
        Sim.cput_reply0 : Sim.cmd _) w2
     = Done {| CPut_hdr :=
                 set_Error Sim.rheader0
                   (Some (Errorf_key_does_not_match_existing (bytes_of "a")));
               ActualValue := Some (Sim.value_of "2") |} w2.
Proof.
  intros h w1 w2.
  assert (Engine.get (engine (rng w1)) (hKey h) = (Some (bytes_of "1"), None))
    as Hget1 by reflexivity.
  assert (Engine.get (engine (rng w2)) (hKey h) = (Some (bytes_of "2"), None))
    as Hget2 by reflexivity.
  repeat apply conj; try assumption.
  - destruct (proj2 (ConditionalPut_semantics w1 h (Sim.value_of "2")
                       (Sim.value_of "1") Sim.cput_reply0 (Some (bytes_of "1"))
                       Hget1))
      as (w' & Hcput & Hengine & _).
    exists w'. split; [exact Hcput|]. rewrite Hengine. reflexivity.
  - exact (ConditionalPut_semantics w2 h (Sim.value_of "3") (Sim.value_of "1")
             Sim.cput_reply0 (Some (bytes_of "2")) Hget2).
Defined.


(** *** The scenarios of the spec *)

(** Put("a","1") then Get("a") returns "1". *)
Example scenario_Put_then_Get :
  let h := Sim.header0 (bytes_of "a") 5 in
  exists w1 w2,
    (executeCmd Put (PutRequest h (Sim.value_of "1")) (PutResponse Sim.rheader0)
     : Sim.cmd _) (Sim.world0 None)
    = Done (PutResponse Sim.rheader0, None) w1
    /\ (executeCmd Get (GetRequest h) Sim.get_reply0 : Sim.cmd _) w1
       = Done (GetResponse {| Get_hdr := Sim.rheader0;
                              Get_Value := Sim.value_of "1" |}, None) w2.
Proof. do 2 eexists. split; vm_compute; reflexivity. Qed.

(** With "1" under "a", ConditionalPut("a", expect="1", new="2") succeeds and
    a Get returns "2"; ConditionalPut("a", expect="1", new="3") then fails and
    reports the actual value "2". *)
Example scenario_ConditionalPut :
  let h := Sim.header0 (bytes_of "a") 5 in
  let w := Sim.world_with [(bytes_of "a", bytes_of "1")] in
  exists w1 w2,
    (Range_ConditionalPut h (Sim.value_of "2") (Sim.value_of "1")
       Sim.cput_reply0 : Sim.cmd _) w = Done Sim.cput_reply0 w1
    /\ (Range_Get h {| Get_hdr := Sim.rheader0; Get_Value := {| Bytes := None |} |}
        : Sim.cmd _) w1
       = Done {| Get_hdr := Sim.rheader0; Get_Value := Sim.value_of "2" |} w2
    /\ (Range_ConditionalPut h (Sim.value_of "3") (Sim.value_of "1")
          Sim.cput_reply0 : Sim.cmd _) w2
       = Done {| CPut_hdr :=
                   set_Error Sim.rheader0
                     (Some (Errorf_key_does_not_match_existing (bytes_of "a")));
                 ActualValue := Some (Sim.value_of "2") |} w2.
Proof. do 2 eexists. repeat apply conj; vm_compute; reflexivity. Qed.

(** The same Put sent twice under one command identifier: the second call is
    answered from the response cache with the reply of the first, and one
    command has been sent to raft in all. *)
Example scenario_replay :
  let h := Sim.header0 (bytes_of "a") 5 in
  let args := PutRequest h (Sim.value_of "1") in
  exists w1 w2 res,
    (ReadWriteCmd Put h args (PutResponse Sim.rheader0) : Sim.cmd _)
      (Sim.world0 None) = Done res w1
    /\ (ReadWriteCmd Put h args (PutResponse Sim.rheader0) : Sim.cmd _) w1
       = Done res w2
    /\ engine (rng w2) = engine (rng w1)
    /\ trace w2 = trace w1
    /\ List.length (filter (fun ev => match ev with raft_send _ => true
                                               | _ => false end) (trace w2))
       = 1%nat.
Proof. do 3 eexists. repeat apply conj; vm_compute; reflexivity. Qed.

(** A Put under the zone prefix of a value that does not decode: the maps of
    the two other prefixes are handed to gossip, the failure to load the zone
    map is logged, the Put reports success and the table is as declared. *)
Example scenario_undecodable_config :
  let h := Sim.header0 Sim.zone_key 5 in
  exists w',
    (Range_Put h {| Bytes := Some [] |} Sim.rheader0 : Sim.cmd _)
      (Sim.world0 (Some [])) = Done (set_Error Sim.rheader0 None) w'
    /\ trace w'
       = [ gossip_AddInfo "accounting" (Info_PrefixConfigMap []) 0;
           gossip_AddInfo "permissions" (Info_PrefixConfigMap []) 0;
           glog_Errorf
             (failed_loading_config_map "zones"
                (Errorf_unable_to_unmarshal_config_key Sim.zone_key
                   (ExternalError "EOF"))) ]
    /\ configPrefixes w' = configPrefixes_decl.
Proof. eexists. repeat apply conj; vm_compute; reflexivity. Qed.

(** *** More theorems at concrete inputs *)

Lemma ContainsKeyRange_proper_range_witness :
  let r := {| StartKey := bytes_of "a"; EndKey := bytes_of "m"; Replicas := [] |} in
  exists b,
    RangeDescriptor_ContainsKeyRange r (bytes_of "b") (bytes_of "c") = Returns b
    /\ (b = true <->
        forall k, Less k (bytes_of "b") = false -> Less k (bytes_of "c") = true ->
                  RangeDescriptor_ContainsKey r k = true).
Proof.
  intros r.
  apply (ContainsKeyRange_proper_range r (bytes_of "b") (bytes_of "c"));
    [discriminate | reflexivity].
Defined.

Lemma SortedString_any_map_order_witness :
  SortedString_of_keys ["ssd"; "hdd"] = SortedString ["hdd"; "ssd"; "hdd"].
Proof.
  apply SortedString_any_map_order.
  - repeat constructor; simpl; intuition discriminate.
  - intros s. simpl. tauto.
Defined.

Lemma ChooseRandomReplica_member_witness :
  let r := {| NodeID := 1; StoreID := 1; Replica_RangeID := 1; Attrs := [] |} in
  exists r', ChooseRandomReplica (fun _ => 0) [r] = Returns (Some r') /\ In r' [r].
Proof.
  intros r.
  apply (ChooseRandomReplica_member (fun _ => 0) [r]). intros n Hn. lia.
Defined.

Lemma executeCmd_keeps_books_witness :
  let h := Sim.header0 (bytes_of "a") 5 in
  let w := Sim.world_read_at (Sim.timestamp 7 0) in
  exists res w',
    (executeCmd Put (PutRequest h (Sim.value_of "1")) (PutResponse Sim.rheader0)
     : Sim.cmd _) w = Done res w'
    /\ tsCache (rng w') = tsCache (rng w).
Proof.
  intros h w.
  destruct ((executeCmd Put (PutRequest h (Sim.value_of "1"))
               (PutResponse Sim.rheader0) : Sim.cmd _) w)
    as [res w'|msg] eqn:Hrun; [|vm_compute in Hrun; discriminate].
  exists res, w'. split; [reflexivity|].
  exact (proj1 (proj2 (executeCmd_keeps_books _ _ _ _ _ _ Hrun))).
Defined.

Lemma ReadOnlyCmd_registers_read_witness :
  let h := Sim.header0 (bytes_of "a") 7 in
  exists res w',
    (ReadOnlyCmd Get h (GetRequest h) Sim.get_reply0 : Sim.cmd _) (Sim.world0 None)
    = Done res w'
    /\ tsCache (rng w') = [(bytes_of "a", [], Sim.timestamp 7 0)].
Proof.
  intros h.
  destruct ((ReadOnlyCmd Get h (GetRequest h) Sim.get_reply0 : Sim.cmd _)
              (Sim.world0 None))
    as [res w'|msg] eqn:Hrun; [|vm_compute in Hrun; discriminate].
  exists res, w'. split; [reflexivity|].
  exact (proj1 (ReadOnlyCmd_registers_read _ _ _ _ _ _ _ Hrun)).
Defined.

Lemma ReadWriteCmd_removes_pending_write_witness :
  let h := Sim.header0 (bytes_of "a") 5 in
  let w := Sim.world0 None in
  exists h' r' e w',
    (ReadWriteCmd Put h (PutRequest h (Sim.value_of "1"))
       (PutResponse Sim.rheader0) : Sim.cmd _) w = Done (h', r', e) w'
    /\ Sim.pending (readQ (rng w')) = [].
Proof.
  intros h w.
  destruct ((ReadWriteCmd Put h (PutRequest h (Sim.value_of "1"))
               (PutResponse Sim.rheader0) : Sim.cmd _) w)
    as [[[h' r'] e] w'|msg] eqn:Hrun; [|vm_compute in Hrun; discriminate].
  exists h', r', e, w'. split; [reflexivity|].
  assert (ResponseCache.GetResponse (respCache (rng w)) (engine (rng w))
            (hCmdID h) (PutResponse Sim.rheader0)
          = (respCache (rng w), PutResponse Sim.rheader0, (false, None)))
    as Hget by (vm_compute; reflexivity).
  destruct (ReadWriteCmd_removes_pending_write _ _ _ _ _ _ _ _ _ _ _ _ _
              Hget Hrun) as (Hq & _).
  rewrite Hq. reflexivity.
Defined.

Lemma executeCmd_returns_embedded_error_witness :
  let h := Sim.header0 (bytes_of "a") 5 in
  exists r' err w',
    (executeCmd "Merge" (GetRequest h) Sim.get_reply0 : Sim.cmd _) (Sim.world0 None)
    = Done (r', err) w'
    /\ err = Some (Errorf_unrecognized_command_type "Merge")
    /\ r' = Sim.get_reply0 /\ w' = Sim.world0 None.
Proof.
  intros h.
  destruct ((executeCmd "Merge" (GetRequest h) Sim.get_reply0 : Sim.cmd _)
              (Sim.world0 None))
    as [[r' err] w'|msg] eqn:Hrun; [|vm_compute in Hrun; discriminate].
  exists r', err, w'. split; [reflexivity|].
  exact (executeCmd_returns_embedded_error _ _ _ _ _ _ _ Hrun).
Defined.

Lemma Put_rebroadcasts_every_prefix_witness :
  let h := Sim.header0 Sim.zone_key 5 in
  let w := Sim.world0 (Some []) in
  exists w' evs,
    (Range_Put h (Sim.value_of "1") Sim.rheader0 : Sim.cmd _) w
    = Done (set_Error Sim.rheader0 None) w'
    /\ trace w' = trace w ++ evs
    /\ forall cp, In cp (configPrefixes w) ->
         RangeDescriptor_ContainsKey (Desc (Meta (rng w))) (keyPrefix cp) = true ->
         exists res, loadConfigMap (keyPrefix cp) (configI cp) w' = Done res w'
                     /\ rebroadcast_of cp res evs.
Proof.
  intros h w.
  assert (Engine.put (engine (rng w)) (hKey h) (Bytes (Sim.value_of "1"))
          = ({| Sim.store := [(Sim.zone_key, bytes_of "1")];
                Sim.failing := false |}, None)) as Hengine
    by (vm_compute; reflexivity).
  apply (Put_rebroadcasts_every_prefix w h (Sim.value_of "1") Sim.rheader0
           _ [] eq_refl eq_refl Hengine eq_refl).
Defined.

Lemma Contains_keeps_reply_fields_witness :
  let h := Sim.header0 (bytes_of "a") 5 in
  let stale := {| Contains_hdr := set_Error Sim.rheader0 (Some NotLeaderError);
                  Exists := true |} in
  (executeCmd Contains (ContainsRequest h) (ContainsResponse stale) : Sim.cmd _)
    (Sim.world0 None)
  = Done (ContainsResponse stale, Some NotLeaderError) (Sim.world0 None).
Proof.
  intros h stale.
  exact (proj2 (Contains_keeps_reply_fields (Sim.world0 None) h stale None
                  eq_refl)).
Defined.

Lemma forward_timestamp_monotone_witness :
  let h := Sim.header0 (bytes_of "a") 5 in
  let ts := Sim.timestamp 7 0 in
  Logical ts <> Logical_max
  /\ Timestamp_Less
       (hTimestamp (fst (forward_timestamp ts h (PutResponse Sim.rheader0))))
       (hTimestamp h) = false.
Proof.
  intros h ts.
  assert (Logical ts <> Logical_max) as Hmax by (vm_compute; discriminate).
  split; [exact Hmax|].
  exact (proj1 (forward_timestamp_monotone ts h (PutResponse Sim.rheader0) Hmax)).
Defined.

Lemma InternalRangeLookup_at_level1_witness :
  let h := Sim.header0 (Sim.meta_prefix ++ bytes_of "1b") 5 in
  let w := Sim.world0 None in
  exists reply',
    (Range_InternalRangeLookup h Sim.lookup_reply0 : Sim.cmd _) w = Done reply' w
    /\ Error (Lookup_hdr reply') = Some (Errorf_key_not_found_in_range 1).
Proof.
  intros h w.
  assert (HasPrefix (hKey h) (KeyMetaPrefix (E := Sim.mem)) = true) as Hmeta
    by reflexivity.
  assert (HasPrefix (hKey h) (KeyMeta1Prefix (E := Sim.mem)) = true) as Hlevel
    by reflexivity.
  assert (Less (hKey h) (EndKey (Desc (Meta (rng w)))) = true) as Hless
    by reflexivity.
  assert (Engine.scan (engine (rng w)) (NextKey (hKey h)) KeyMax 1 = ([], None))
    as Hscan by reflexivity.
  destruct (InternalRangeLookup_at_level1 w h Sim.lookup_reply0 []
              Hmeta Hlevel Hless Hscan) as (reply' & Hrun & Hnone).
  exists reply'. split; [exact Hrun|].
  now rewrite (Hnone (or_introl eq_refl)).
Defined.
